(** * Content verification and guarded repository actions of the kopia CLI

    A shallow embedding of [cli/command_content_verify.go] and of the action
    wrappers of [cli/app.go] ([maybeRepositoryAction], [maybeRunMaintenance],
    [directRepositoryReadAction], ...), followed by the properties the
    design document states about them.

    Go values are modelled as follows.
    - fixed-width integers are [Z] with the wrap-around written out
      (module [GoInt]);
    - an [error] value is [option error], [None] being [nil];
    - [map[blob.ID]blob.Metadata] is a [gmap string Metadata];
    - calls into collaborators that live outside these files (blob listing,
      content iteration, content fetch, repository open and close, the
      maintenance procedure) take their outcome from the fields of the
      repository records below, and every observable call or log line is
      recorded, in program order, in a list of [event]s. *)

From Stdlib Require Import ZArith Lia.
From stdpp Require Import gmap strings list.

Local Open Scope Z_scope.

(** ** Fixed-width integer arithmetic of Go *)

Module GoInt.

(** Value of an unsigned [w]-bit integer expression. *)
Definition uwrap (w : Z) (z : Z) : Z := z mod 2 ^ w.

(** Value of a signed [w]-bit integer expression (two's complement). *)
Definition swrap (w : Z) (z : Z) : Z :=
  (z + 2 ^ (w - 1)) mod 2 ^ w - 2 ^ (w - 1).

(** [a + b] on two unsigned [w]-bit operands. *)
Definition uadd (w : Z) (a b : Z) : Z := uwrap w (a + b).

(** [a + b] on two [uint32] operands. *)
Definition uint32_add (a b : Z) : Z := uadd 32 a b.

(** The conversion [int64(x)]. *)
Definition int64 (z : Z) : Z := swrap 64 z.

(** [a + b] on two [int32] operands; also the value [atomic.AddInt32]
    stores and returns. *)
Definition int32_add (a b : Z) : Z := swrap 32 (a + b).

(** [a % b] on signed operands truncates toward zero. *)
Definition rem (a b : Z) : Z := Z.rem a b.

Definition is_uint32 (z : Z) : Prop := 0 <= z < 2 ^ 32.
Definition is_int32 (z : Z) : Prop := - 2 ^ 31 <= z < 2 ^ 31.

End GoInt.

(** ** Errors *)

(** An argument of a [%v] verb. *)
Inductive farg :=
| FInt (z : Z)
| FStr (s : string).

(** Go [error] values that occur in these files.  [nil] is [None] of
    [option error]. *)
Inductive error :=
| External (msg : string)
    (* an error produced by a collaborator outside these files *)
| NotOwnedError
    (* maintenance.NotOwnedError *)
| Errorf (fmt : string) (args : list farg)
    (* errors.Errorf(fmt, args...) and errors.New(fmt) *)
| Wrapf (cause : error) (fmt : string) (args : list farg).
    (* errors.Wrapf(cause, fmt, args...), errors.Wrap(cause, fmt) *)

(** [errors.Wrap(err, msg)]: [nil] stays [nil]. *)
Definition Wrap (err : option error) (msg : string) : option error :=
  match err with
  | None => None
  | Some e => Some (Wrapf e msg [])
  end.

(** [errors.As(err, &noe)] with [noe] of type [maintenance.NotOwnedError]:
    walks the chain of causes. *)
Fixpoint chain_has_NotOwned (e : error) : bool :=
  match e with
  | NotOwnedError => true
  | Wrapf cause _ _ => chain_has_NotOwned cause
  | External _ | Errorf _ _ => false
  end.

Definition errors_As_NotOwned (err : option error) : bool :=
  match err with
  | None => false
  | Some e => chain_has_NotOwned e
  end.

(** A [(value, error)] pair of which exactly one side is meaningful. *)
Inductive result (A : Type) :=
| Ok (a : A)
| Err (e : error).
Arguments Ok {A} a.
Arguments Err {A} e.

(** ** Data model *)

(** [blob.Metadata]; [Length] is an [int64]. *)
Record Metadata := { BlobID : string; Length : Z }.

(** [content.Info].  The interface is declared in [repo/content]; its
    getters [GetPackOffset] and [GetPackedLength] return [uint32]. *)
Record Info := {
  GetContentID : string;
  GetPackBlobID : string;
  GetPackOffset : Z;
  GetPackedLength : Z;
  GetDeleted : bool
}.

Definition Info_wf (ci : Info) : Prop :=
  GoInt.is_uint32 (GetPackOffset ci) /\ GoInt.is_uint32 (GetPackedLength ci).

(** [commandContentVerify]; [contentRange] is kept as the membership test
    of the range that [contentRange.contentIDRange()] denotes. *)
Record commandContentVerify := {
  contentVerifyParallel : Z;
  contentVerifyFull : bool;
  contentVerifyIncludeDeleted : bool;
  contentRange : string -> bool
}.

(** [content.IterateOptions]. *)
Record IterateOptions := {
  Range : string -> bool;
  Parallel : Z;
  IncludeDeleted : bool
}.

(** [blob.Reader], as far as [readBlobMap] observes it: the metadata that
    [ListBlobs] hands to its callback, in order, and the error it returns
    after the last of them ([None] for [nil]). *)
Record BlobReader := {
  ListBlobs_items : list Metadata;
  ListBlobs_err : option error
}.

(** [content.Reader]: the content index, the outcome of
    [GetContent(ctx, id)] ([None] when the bytes were fetched), and
    whether [IterateContents] itself fails, after how many records and
    with which error. *)
Record ContentReader := {
  Index : list Info;
  GetContent : string -> option error;
  Iterate_failure : option (nat * error)
}.

(** [repo.DirectRepository], as far as [run] uses it. *)
Record DirectRepository := {
  rep_BlobReader : BlobReader;
  rep_ContentReader : ContentReader
}.

(** ** The per-record check *)

Definition missing_blob_fmt : string := "content %v depends on missing blob %v".
Definition out_of_bounds_fmt : string := "content %v out of bounds of its pack blob %v".
Definition invalid_fmt : string := "content %v is invalid".

(** The method [contentVerify] of [commandContentVerify]. *)
Definition contentVerify (c : commandContentVerify) (r : ContentReader)
    (ci : Info) (blobMap : gmap string Metadata) : option error :=
  if contentVerifyFull c then
    match GetContent r (GetContentID ci) with
    | Some err => Some (Wrapf err invalid_fmt [FStr (GetContentID ci)])
    | None => None
    end
  else
    match blobMap !! GetPackBlobID ci with
    | None =>
        Some (Errorf missing_blob_fmt
                [FStr (GetContentID ci); FStr (GetPackBlobID ci)])
    | Some bi =>
        if GoInt.int64 (GoInt.uint32_add (GetPackOffset ci) (GetPackedLength ci))
             >? Length bi
        then Some (Errorf out_of_bounds_fmt
                     [FStr (GetContentID ci); FStr (GetPackBlobID ci)])
        else None
    end.

(** ** Observable events and the monad that records them *)

Inductive counter := CTotal | CSuccess | CError.

(** [maintenance.SafetyParameters] and [maintenance.Mode], as named in
    these files. *)
Inductive SafetyParameters := SafetyNone | SafetyFull.
Inductive maintenance_Mode := ModeAuto.

Inductive event :=
| LogInfof (fmt : string) (args : list farg)
    (* log(ctx).Infof(fmt, args...) *)
| LogErrorf (fmt : string) (e : error)
    (* log(ctx).Errorf(fmt, err) *)
| CallListBlobs (prefix : string)
| CallIterateContents (parallel : Z) (includeDeleted : bool)
| AtomicAddInt32 (c : counter) (ci : Info)
    (* atomic.AddInt32(&c, 1), executed by the callback visiting ci *)
| StartMemoryTracking
| FinishMemoryTracking
| InitPrometheus
| ListenAndServe (addr : string)
| CallOpenRepository (required : bool)
| CallAction (connected : bool)
| BeginWriteSession (purpose : string)
| CommitWriteSession
| AbortWriteSession
| CallMaintenanceRun (mode : maintenance_Mode) (force : bool)
    (safety : SafetyParameters)
| CallClose.

(** How a computation ends: it returns a value, the process exits
    ([os.Exit]), or it panics. *)
Inductive outcome (A : Type) :=
| Val (a : A)
| Exited (status : Z)
| Panicked.
Arguments Val {A} a.
Arguments Exited {A} status.
Arguments Panicked {A}.

(** A computation yields its outcome and the events it produced, in
    order. *)
Definition M (A : Type) : Type := (outcome A * list event)%type.

Definition ret {A} (a : A) : M A := (Val a, []).

Definition bind {A B} (m : M A) (k : A -> M B) : M B :=
  match fst m with
  | Val a => let (b, t) := k a in (b, snd m ++ t)
  | Exited st => (Exited st, snd m)
  | Panicked => (Panicked, snd m)
  end.

Definition emit (e : event) : M unit := (Val tt, [e]).

(** [os.Exit(status)]. *)
Definition os_Exit {A} (status : Z) : M A := (Exited status, []).

(** A nil dereference or a method call on a nil interface. *)
Definition panic {A} : M A := (Panicked, []).

(** [defer d] at the head of [body]: [d] runs when [body] returns or
    panics, not when the process exits. *)
Definition defer {A} (d : list event) (body : M A) : M A :=
  match fst body with
  | Exited st => body
  | _ => (fst body, snd body ++ d)
  end.

Definition value {A} (m : M A) : outcome A := fst m.
Definition trace {A} (m : M A) : list event := snd m.

Notation "'let*' x ':=' m 'in' k" := (bind m (fun x => k))
  (at level 10, x pattern, m at level 100, k at level 200).

(** [if b { emit e }]. *)
Definition when (b : bool) (e : event) : M unit :=
  if b then emit e else ret tt.

(** ** Listing blobs *)

(** Modelled from the spec: [blob.Reader.ListBlobs] is declared in
    [repo/blob].  It visits (blob id, length) pairs through the callback
    and may fail; a callback error stops the listing and is returned. *)
Fixpoint ListBlobs_loop {S} (items : list Metadata)
    (cb : Metadata -> S -> M (S * option error)) (s : S)
    : M (S * option error) :=
  match items with
  | [] => ret (s, None)
  | bm :: rest =>
      let* (s1, err) := cb bm s in
      match err with
      | Some e => ret (s1, Some e)
      | None => ListBlobs_loop rest cb s1
      end
  end.

Definition ListBlobs {S} (br : BlobReader) (prefix : string)
    (cb : Metadata -> S -> M (S * option error)) (s : S)
    : M (S * option error) :=
  let* _ := emit (CallListBlobs prefix) in
  let* (s1, err) := ListBlobs_loop (ListBlobs_items br) cb s in
  match err with
  | Some e => ret (s1, Some e)
  | None => ret (s1, ListBlobs_err br)
  end.

(** [len(blobMap)]. *)
Definition len (m : gmap string Metadata) : Z := Z.of_nat (size m).

(** The callback [readBlobMap] passes to [ListBlobs]; the captured
    [blobMap] is threaded through. *)
Definition readBlobMap_cb (bm : Metadata) (blobMap : gmap string Metadata)
    : M (gmap string Metadata * option error) :=
  let blobMap := <[BlobID bm := bm]> blobMap in
  let* _ := when (GoInt.rem (len blobMap) 10000 =? 0)
                 (LogInfof "  %v blobs..." [FInt (len blobMap)]) in
  ret (blobMap, None).

(** [readBlobMap]. *)
Definition readBlobMap (br : BlobReader) : M (result (gmap string Metadata)) :=
  let* _ := emit (LogInfof "Listing blobs..." []) in
  let* (blobMap, err) := ListBlobs br "" readBlobMap_cb ∅ in
  match err with
  | Some e => ret (Err (Wrapf e "unable to list blobs" []))
  | None =>
      let* _ := emit (LogInfof "Listed %v blobs." [FInt (len blobMap)]) in
      ret (Ok blobMap)
  end.

(** ** Iterating over the content index *)

Definition selected (opts : IterateOptions) (idx : list Info) : list Info :=
  List.filter
    (fun ci => Range opts (GetContentID ci)
               && (IncludeDeleted opts || negb (GetDeleted ci)))
    idx.

Fixpoint IterateContents_loop {S} (l : list Info)
    (cb : Info -> S -> M (S * option error)) (s : S)
    : M (S * option error) :=
  match l with
  | [] => ret (s, None)
  | ci :: rest =>
      let* (s1, err) := cb ci s in
      match err with
      | Some e => ret (s1, Some e)
      | None => IterateContents_loop rest cb s1
      end
  end.

(** Modelled from the spec: [content.Reader.IterateContents] is declared
    in [repo/content].  It visits every record of the index that lies in
    the range and, unless deleted records are included, is not deleted,
    exactly once, and may fail.  This is the schedule in which the
    callbacks run one after the other; [pexec] below runs them
    interleaved. *)
Definition IterateContents {S} (r : ContentReader) (opts : IterateOptions)
    (cb : Info -> S -> M (S * option error)) (s : S)
    : M (S * option error) :=
  let* _ := emit (CallIterateContents (Parallel opts) (IncludeDeleted opts)) in
  let sel := selected opts (Index r) in
  match Iterate_failure r with
  | None => IterateContents_loop sel cb s
  | Some (k, e) =>
      let* (s1, err) := IterateContents_loop (take k sel) cb s in
      match err with
      | Some e' => ret (s1, Some e')
      | None => ret (s1, Some e)
      end
  end.

(** ** The verification run *)

(** The three [int32] counters of [run]. *)
Record counters := {
  totalCount : Z;
  successCount : Z;
  errorCount : Z
}.

Definition zero_counters : counters :=
  {| totalCount := 0; successCount := 0; errorCount := 0 |}.

(** [atomic.AddInt32(&c, 1)]. *)
Definition atomic_AddInt32 (c : counter) (cnt : counters) : counters :=
  match c with
  | CTotal =>
      {| totalCount := GoInt.int32_add (totalCount cnt) 1;
         successCount := successCount cnt;
         errorCount := errorCount cnt |}
  | CSuccess =>
      {| totalCount := totalCount cnt;
         successCount := GoInt.int32_add (successCount cnt) 1;
         errorCount := errorCount cnt |}
  | CError =>
      {| totalCount := totalCount cnt;
         successCount := successCount cnt;
         errorCount := GoInt.int32_add (errorCount cnt) 1 |}
  end.

Definition progress_fmt : string := "  %v contents, %v errors...".

(** The callback [run] passes to [IterateContents]. *)
Definition run_cb (c : commandContentVerify) (r : ContentReader)
    (blobMap : gmap string Metadata) (ci : Info) (cnt : counters)
    : M (counters * option error) :=
  let* cnt1 :=
    match contentVerify c r ci blobMap with
    | Some err =>
        let* _ := emit (LogErrorf "error %v" err) in
        let* _ := emit (AtomicAddInt32 CError ci) in
        ret (atomic_AddInt32 CError cnt)
    | None =>
        let* _ := emit (AtomicAddInt32 CSuccess ci) in
        ret (atomic_AddInt32 CSuccess cnt)
    end in
  let* _ := emit (AtomicAddInt32 CTotal ci) in
  let cnt2 := atomic_AddInt32 CTotal cnt1 in
  let t := totalCount cnt2 in
  let* _ := when (GoInt.rem t 100000 =? 0)
                 (LogInfof progress_fmt [FInt t; FInt (errorCount cnt2)]) in
  ret (cnt2, None).

(** Lines 53-62 of [run]: the blob map the records are checked against. *)
Definition run_blobMap (c : commandContentVerify) (rep : DirectRepository)
    : M (result (gmap string Metadata)) :=
  if negb (contentVerifyFull c) then
    let* r := readBlobMap (rep_BlobReader rep) in
    match r with
    | Err e => ret (Err e)
    | Ok m => ret (Ok m)
    end
  else ret (Ok ∅).

Definition IterateOptions_of (c : commandContentVerify) : IterateOptions :=
  {| Range := contentRange c;
     Parallel := contentVerifyParallel c;
     IncludeDeleted := contentVerifyIncludeDeleted c |}.

(** Lines 64-88 of [run]: the counters after the iteration, and its
    error. *)
Definition run_iterate (c : commandContentVerify) (rep : DirectRepository)
    (blobMap : gmap string Metadata) : M (counters * option error) :=
  let* _ := emit (LogInfof "Verifying all contents..." []) in
  IterateContents (rep_ContentReader rep) (IterateOptions_of c)
    (run_cb c (rep_ContentReader rep) blobMap) zero_counters.

Definition finished_fmt : string := "Finished verifying %v contents, found %v errors.".
Definition encountered_fmt : string := "encountered %v errors".

(** Lines 90-96 of [run]: the final report. *)
Definition run_report (cnt : counters) : M (option error) :=
  let* _ := emit (LogInfof finished_fmt
                    [FInt (totalCount cnt); FInt (errorCount cnt)]) in
  if errorCount cnt =? 0 then ret None
  else ret (Some (Errorf encountered_fmt [FInt (errorCount cnt)])).

(** Lines 64-96 of [run], with the counters it ends with ([None] when
    the iteration failed). *)
Definition run_from (c : commandContentVerify) (rep : DirectRepository)
    (blobMap : gmap string Metadata) : M (option error * option counters) :=
  let* (cnt, err) := run_iterate c rep blobMap in
  match err with
  | Some e => ret (Wrap (Some e) "iterate contents", None)
  | None =>
      let* res := run_report cnt in
      ret (res, Some cnt)
  end.

(** [run], with the counters it ends with ([None] when it returned before
    they were declared or before the final report). *)
Definition run_counters (c : commandContentVerify) (rep : DirectRepository)
    : M (option error * option counters) :=
  let* bm := run_blobMap c rep in
  match bm with
  | Err e => ret (Some e, None)
  | Ok blobMap => run_from c rep blobMap
  end.

(** The method [run] of [commandContentVerify]. *)
Definition run (c : commandContentVerify) (rep : DirectRepository)
    : M (option error) :=
  let* (res, _) := run_counters c rep in
  ret res.

(** [c.run] as the action [setup] registers: on a nil repository the
    first method call on it panics. *)
Definition run_act (c : commandContentVerify) (rep : option DirectRepository)
    : M (option error) :=
  match rep with
  | Some r => run c r
  | None =>
      if negb (contentVerifyFull c) then panic
      else let* _ := emit (LogInfof "Verifying all contents..." []) in panic
  end.

(** ** The guarded repository action *)

(** [repo.Repository]: the read-only client option, the outcome of the
    type assertion to [repo.DirectRepository], and the outcomes of the
    maintenance procedure, of committing a write session and of [Close]. *)
Record Repository := {
  ReadOnly : bool;
  asDirect : option DirectRepository;
  Maintenance_err : option error;
  Commit_err : option error;
  Close_err : option error
}.

(** The fields of [App] these functions read. *)
Record App := {
  enableAutomaticMaintenance : bool;
  metricsListenAddr : string
}.

(** What lies outside these files: the outcome of [initPrometheus] and of
    [openRepository(ctx, required)]. *)
Record Env := {
  initPrometheus_err : option error;
  openRepository : bool -> option Repository * option error
}.

Record repositoryAccessMode := {
  mustBeConnected : bool;
  disableMaintenance : bool
}.

(** Modelled from the spec: [repo.DirectWriteSession] is declared in
    [repo].  It opens a write session tagged with a purpose around the
    callback; the callback's success commits, its error aborts and is
    returned. *)
Definition DirectWriteSession (rep : Repository) (purpose : string)
    (cb : M (option error)) : M (option error) :=
  let* _ := emit (BeginWriteSession purpose) in
  let* err := cb in
  match err with
  | Some e =>
      let* _ := emit AbortWriteSession in
      ret (Some e)
  | None =>
      let* _ := emit CommitWriteSession in
      ret (Commit_err rep)
  end.

(** [maybeRunMaintenance]. *)
Definition maybeRunMaintenance (app : App) (rep : Repository)
    : M (option error) :=
  if negb (enableAutomaticMaintenance app) then ret None
  else if ReadOnly rep then ret None
  else
    match asDirect rep with
    | None => ret None
    | Some _ =>
        let* err :=
          DirectWriteSession rep "maybeRunMaintenance"
            (let* _ := emit (CallMaintenanceRun ModeAuto false SafetyFull) in
             ret (Maintenance_err rep)) in
        if errors_As_NotOwned err then ret None
        else ret (Wrap err "error running maintenance")
    end.

(** An action as [maybeRepositoryAction] takes it; [None] is the nil
    repository. *)
Definition action : Type := option Repository -> M (option error).

(** Modelled from the spec: [withProfiling] is declared elsewhere in
    package [cli]; it runs the callback inside a scoped observability
    region and returns what the callback returns. *)
Definition withProfiling (callback : M (option error)) : M (option error) :=
  callback.

(** The closure [maybeRepositoryAction] passes to [withProfiling]
    (lines 492-526). *)
Definition maybeRepositoryAction_body (app : App) (env : Env) (act : action)
    (mode : repositoryAccessMode) : M (option error) :=
  let* _ := emit StartMemoryTracking in
  defer [FinishMemoryTracking] (
    let* perr :=
      if negb (String.eqb (metricsListenAddr app) "") then
        let* _ := emit InitPrometheus in
        match initPrometheus_err env with
        | Some e => ret (Some e)
        | None =>
            let* _ := emit (LogInfof "starting prometheus metrics on %v"
                              [FStr (metricsListenAddr app)]) in
            let* _ := emit (ListenAndServe (metricsListenAddr app)) in
            ret None
        end
      else ret None in
    match perr with
    | Some e => ret (Wrap (Some e) "unable to initialize prometheus.")
    | None =>
        let* _ := emit (CallOpenRepository (mustBeConnected mode)) in
        let (rep, err) := openRepository env (mustBeConnected mode) in
        if bool_decide (is_Some err) && mustBeConnected mode then
          ret (Wrap err "open repository")
        else
          let* _ := emit (CallAction (bool_decide (is_Some rep))) in
          let* err := act rep in
          let* _ :=
            match rep with
            | Some r =>
                if negb (disableMaintenance mode) then
                  let* merr := maybeRunMaintenance app r in
                  match merr with
                  | Some me =>
                      emit (LogErrorf "error running maintenance: %v" me)
                  | None => ret tt
                  end
                else ret tt
            | None => ret tt
            end in
          let* cerr :=
            match rep with
            | Some r =>
                if mustBeConnected mode then
                  let* _ := emit CallClose in
                  ret (Close_err r)
                else ret None
            | None => ret None
            end in
          match cerr with
          | Some ce => ret (Wrap (Some ce) "unable to close repository")
          | None => ret err
          end
    end).

(** The function [maybeRepositoryAction] returns: it returns [nil] or
    logs the error and exits with status 1. *)
Definition maybeRepositoryAction (app : App) (env : Env) (act : action)
    (mode : repositoryAccessMode) : M (option error) :=
  let* err := withProfiling (maybeRepositoryAction_body app env act mode) in
  match err with
  | Some e =>
      let* _ := emit (LogErrorf "ERROR: %v" e) in
      os_Exit 1
  | None => ret None
  end.

(** [assertDirectRepository]. *)
Definition assertDirectRepository
    (act : option DirectRepository -> M (option error)) : action :=
  fun rep =>
    match rep with
    | None => act None
    | Some r =>
        match asDirect r with
        | None =>
            ret (Some (Errorf "operation supported only on direct repository" []))
        | Some lr => act (Some lr)
        end
    end.

Definition directRepositoryReadAction_mode : repositoryAccessMode :=
  {| mustBeConnected := true; disableMaintenance := true |}.

(** [directRepositoryReadAction]. *)
Definition directRepositoryReadAction (app : App) (env : Env)
    (act : option DirectRepository -> M (option error)) : M (option error) :=
  maybeRepositoryAction app env
    (assertDirectRepository (fun rep => act rep))
    directRepositoryReadAction_mode.

(** [repositoryReaderAction]. *)
Definition repositoryReaderAction (app : App) (env : Env) (act : action)
    : M (option error) :=
  maybeRepositoryAction app env (fun rep => act rep)
    {| mustBeConnected := true; disableMaintenance := true |}.

(** What [setup] registers as the action of [content verify]:
    [svc.directRepositoryReadAction(c.run)]. *)
Definition setup (c : commandContentVerify) (app : App) (env : Env)
    : M (option error) :=
  directRepositoryReadAction app env (run_act c).

(** ** The callbacks of [run] under parallel iteration *)

(** [IterateContents] runs up to [Parallel] invocations of the callback at
    once.  The callback of [run] touches shared state only through its
    atomic operations, so an execution is an interleaving of the following
    steps of the in-flight invocations. *)
Inductive worker :=
| AtVerify (ci : Info)
    (* entered; [contentVerify] not yet called *)
| AtCount (ci : Info) (err : option error)
    (* [contentVerify] returned [err]; success or error not yet added *)
| AtTotal (ci : Info)
    (* success or error added; total not yet added *)
| AtProgress (ci : Info) (t : Z).
    (* total added and [t] returned; milestone not yet tested *)

Record pstate := {
  p_pending : list Info;
  p_workers : list worker;
  p_counters : counters;
  p_trace : list event
}.

(** What the scheduler does next: hand the next record to a new
    invocation, or let invocation [i] take its next step. *)
Inductive choice :=
| Spawn
| Advance (i : nat).

Section Parallel.

Variable c : commandContentVerify.
Variable r : ContentReader.
Variable blobMap : gmap string Metadata.

Definition advance (w : worker) (cnt : counters)
    : option worker * counters * list event :=
  match w with
  | AtVerify ci =>
      let err := contentVerify c r ci blobMap in
      (Some (AtCount ci err), cnt,
       match err with
       | Some e => [LogErrorf "error %v" e]
       | None => []
       end)
  | AtCount ci (Some _) =>
      (Some (AtTotal ci), atomic_AddInt32 CError cnt,
       [AtomicAddInt32 CError ci])
  | AtCount ci None =>
      (Some (AtTotal ci), atomic_AddInt32 CSuccess cnt,
       [AtomicAddInt32 CSuccess ci])
  | AtTotal ci =>
      let cnt' := atomic_AddInt32 CTotal cnt in
      (Some (AtProgress ci (totalCount cnt')), cnt',
       [AtomicAddInt32 CTotal ci])
  | AtProgress ci t =>
      (None, cnt,
       if GoInt.rem t 100000 =? 0
       then [LogInfof progress_fmt [FInt t; FInt (errorCount cnt)]]
       else [])
  end.

Definition pstep (parallel : Z) (ch : choice) (st : pstate)
    : option pstate :=
  match ch with
  | Spawn =>
      match p_pending st with
      | ci :: rest =>
          if Z.of_nat (length (p_workers st)) <? parallel then
            Some {| p_pending := rest;
                    p_workers := p_workers st ++ [AtVerify ci];
                    p_counters := p_counters st;
                    p_trace := p_trace st |}
          else None
      | [] => None
      end
  | Advance i =>
      match p_workers st !! i with
      | None => None
      | Some w =>
          let '(w', cnt, evs) := advance w (p_counters st) in
          Some {| p_pending := p_pending st;
                  p_workers :=
                    match w' with
                    | Some w1 => <[i := w1]> (p_workers st)
                    | None => delete i (p_workers st)
                    end;
                  p_counters := cnt;
                  p_trace := p_trace st ++ evs |}
      end
  end.

(** Runs a schedule; [None] when the schedule asks for a step that is
    not enabled. *)
Fixpoint pexec (parallel : Z) (sched : list choice) (st : pstate)
    : option pstate :=
  match sched with
  | [] => Some st
  | ch :: rest =>
      match pstep parallel ch st with
      | Some st' => pexec parallel rest st'
      | None => None
      end
  end.

End Parallel.

Definition pinit (recs : list Info) : pstate :=
  {| p_pending := recs; p_workers := [];
     p_counters := zero_counters; p_trace := [] |}.

(** Every record was handed out and every invocation returned. *)
Definition pdone (st : pstate) : bool :=
  match p_pending st, p_workers st with
  | [], [] => true
  | _, _ => false
  end.

(** The schedule in which each invocation runs to its end before the next
    one starts. *)
Definition sequential_schedule (recs : list Info) : list choice :=
  List.concat
    (List.map (fun _ => [Spawn; Advance 0%nat; Advance 0%nat;
                         Advance 0%nat; Advance 0%nat]) recs).

(** The records on which [atomic.AddInt32(&k, 1)] was executed, in the
    order of the trace. *)
Fixpoint adds (k : counter) (tr : list event) : list Info :=
  match tr with
  | [] => []
  | AtomicAddInt32 k' ci :: rest =>
      match k, k' with
      | CTotal, CTotal | CSuccess, CSuccess | CError, CError =>
          ci :: adds k rest
      | _, _ => adds k rest
      end
  | _ :: rest => adds k rest
  end.

(** ** Closed forms used in the proofs *)

(** The map [readBlobMap] builds from the listed metadata. *)
Definition blobMap_of (items : list Metadata) (m : gmap string Metadata)
    : gmap string Metadata :=
  fold_left (fun m bm => <[BlobID bm := bm]> m) items m.

Definition is_log (ev : event) : bool :=
  match ev with
  | LogInfof _ _ | LogErrorf _ _ => true
  | _ => false
  end.

Definition is_ListBlobs (ev : event) : bool :=
  match ev with
  | CallListBlobs _ => true
  | _ => false
  end.

(** Events of the iteration over the records. *)
Definition is_record_event (ev : event) : bool :=
  match ev with
  | CallIterateContents _ _ | AtomicAddInt32 _ _ => true
  | _ => false
  end.

(** Events of automatic maintenance. *)
Definition is_maintenance_event (ev : event) : bool :=
  match ev with
  | BeginWriteSession _ | CommitWriteSession | AbortWriteSession
  | CallMaintenanceRun _ _ _ => true
  | _ => false
  end.

Definition verdict_counter (err : option error) : counter :=
  match err with
  | Some _ => CError
  | None => CSuccess
  end.

Definition run_cb_events (err : option error) (ci : Info) (cnt2 : counters)
    : list event :=
  match err with
  | Some e => [LogErrorf "error %v" e; AtomicAddInt32 CError ci]
  | None => [AtomicAddInt32 CSuccess ci]
  end ++
  AtomicAddInt32 CTotal ci ::
  (if GoInt.rem (totalCount cnt2) 100000 =? 0
   then [LogInfof progress_fmt [FInt (totalCount cnt2); FInt (errorCount cnt2)]]
   else []).

Section Sequential.

Variable c : commandContentVerify.
Variable r : ContentReader.
Variable blobMap : gmap string Metadata.

Definition cb_counters (ci : Info) (cnt : counters) : counters :=
  atomic_AddInt32 CTotal
    (atomic_AddInt32 (verdict_counter (contentVerify c r ci blobMap)) cnt).

(** The counters after the callback has run on each record in turn. *)
Fixpoint seq_counters (recs : list Info) (cnt : counters) : counters :=
  match recs with
  | [] => cnt
  | ci :: rest => seq_counters rest (cb_counters ci cnt)
  end.

(** The events of these invocations. *)
Fixpoint seq_trace (recs : list Info) (cnt : counters) : list event :=
  match recs with
  | [] => []
  | ci :: rest =>
      run_cb_events (contentVerify c r ci blobMap) ci (cb_counters ci cnt)
      ++ seq_trace rest (cb_counters ci cnt)
  end.

End Sequential.

(** The records [IterateContents] hands to the callback. *)
Definition visited (r : ContentReader) (opts : IterateOptions) : list Info :=
  match Iterate_failure r with
  | None => selected opts (Index r)
  | Some (k, _) => take k (selected opts (Index r))
  end.

(** The records the check accepts, and those it rejects. *)
Definition passing (c : commandContentVerify) (r : ContentReader)
    (blobMap : gmap string Metadata) (recs : list Info) : list Info :=
  filter (fun ci => contentVerify c r ci blobMap = None) recs.

Definition failing (c : commandContentVerify) (r : ContentReader)
    (blobMap : gmap string Metadata) (recs : list Info) : list Info :=
  filter (fun ci => contentVerify c r ci blobMap <> None) recs.

(** The record of an in-flight invocation that has not yet added to the
    total, and to success or error. *)
Definition owes_total (w : worker) : list Info :=
  match w with
  | AtVerify ci | AtCount ci _ | AtTotal ci => [ci]
  | AtProgress _ _ => []
  end.

Definition owes_verdict (w : worker) : list Info :=
  match w with
  | AtVerify ci | AtCount ci _ => [ci]
  | AtTotal _ | AtProgress _ _ => []
  end.

(** The same for an invocation that may have returned. *)
Definition owes {A} (f : worker -> list A) (w : option worker) : list A :=
  match w with
  | Some w1 => f w1
  | None => []
  end.

(** The counter [k] of [cnt]. *)
Definition get_counter (k : counter) (cnt : counters) : Z :=
  match k with
  | CTotal => totalCount cnt
  | CSuccess => successCount cnt
  | CError => errorCount cnt
  end.

(** The value an [int32] counter holds after [n] increments from 0. *)
Definition after_increments (n : nat) : Z := GoInt.swrap 32 (Z.of_nat n).

Section Invariant.

Variable c : commandContentVerify.
Variable r : ContentReader.
Variable blobMap : gmap string Metadata.

(** The verdict an invocation holds is the one of its record. *)
Definition worker_ok (w : worker) : Prop :=
  match w with
  | AtCount ci err => err = contentVerify c r ci blobMap
  | _ => True
  end.

(** What holds in every state of every execution over [recs]. *)
Record pinv (recs : list Info) (st : pstate) : Prop := {
  pinv_counters : forall k,
    get_counter k (p_counters st) =
      after_increments (length (adds k (p_trace st)));
  pinv_total :
    adds CTotal (p_trace st)
      ++ flat_map owes_total (p_workers st) ++ p_pending st ≡ₚ recs;
  pinv_verdict :
    (adds CSuccess (p_trace st) ++ adds CError (p_trace st))
      ++ flat_map owes_verdict (p_workers st) ++ p_pending st ≡ₚ recs;
  pinv_success :
    Forall (fun ci => contentVerify c r ci blobMap = None)
      (adds CSuccess (p_trace st));
  pinv_error :
    Forall (fun ci => contentVerify c r ci blobMap <> None)
      (adds CError (p_trace st));
  pinv_workers : Forall worker_ok (p_workers st)
}.

End Invariant.

(** The events [run] can emit. *)
Definition is_verify_event (ev : event) : bool :=
  match ev with
  | LogInfof _ _ | LogErrorf _ _ | CallListBlobs _
  | CallIterateContents _ _ | AtomicAddInt32 _ _ => true
  | _ => false
  end.

(** Whether [maybeRunMaintenance] gets past its three early returns. *)
Definition maintenance_gate (app : App) (rep : Repository) : bool :=
  enableAutomaticMaintenance app && negb (ReadOnly rep)
  && bool_decide (is_Some (asDirect rep)).

(** What the write session around the maintenance procedure returns. *)
Definition maintenance_session_err (rep : Repository) : option error :=
  match Maintenance_err rep with
  | Some e => Some e
  | None => Commit_err rep
  end.

Definition maintenance_session_events (rep : Repository) : list event :=
  [BeginWriteSession "maybeRunMaintenance";
   CallMaintenanceRun ModeAuto false SafetyFull;
   match Maintenance_err rep with
   | Some _ => AbortWriteSession
   | None => CommitWriteSession
   end].

(** Starting the metrics listener. *)
Definition prometheus_events (app : App) : list event :=
  if negb (String.eqb (metricsListenAddr app) "") then
    [InitPrometheus;
     LogInfof "starting prometheus metrics on %v" [FStr (metricsListenAddr app)];
     ListenAndServe (metricsListenAddr app)]
  else [].

(** Step 5 of the guarded action: maintenance and the log line of its
    failure. *)
Definition maintenance_events (app : App) (mode : repositoryAccessMode)
    (rep : option Repository) : list event :=
  match rep with
  | Some r =>
      if negb (disableMaintenance mode) then
        trace (maybeRunMaintenance app r) ++
        match value (maybeRunMaintenance app r) with
        | Val (Some me) => [LogErrorf "error running maintenance: %v" me]
        | _ => []
        end
      else []
  | None => []
  end.

(** Step 6 of the guarded action: whether [Close] is called, and its
    error. *)
Definition close_events (mode : repositoryAccessMode)
    (rep : option Repository) : list event :=
  match rep with
  | Some _ => if mustBeConnected mode then [CallClose] else []
  | None => []
  end.

Definition close_error (mode : repositoryAccessMode)
    (rep : option Repository) : option error :=
  match rep with
  | Some r => if mustBeConnected mode then Close_err r else None
  | None => None
  end.

(** ** Concrete inputs *)

Definition B1 : Metadata := {| BlobID := "B1"; Length := 1000 |}.

Definition record (id blobID : string) (offset length : Z) : Info :=
  {| GetContentID := id; GetPackBlobID := blobID;
     GetPackOffset := offset; GetPackedLength := length;
     GetDeleted := false |}.

Definition bounds_cmd : commandContentVerify :=
  {| contentVerifyParallel := 16; contentVerifyFull := false;
     contentVerifyIncludeDeleted := false; contentRange := fun _ => true |}.

Definition full_cmd : commandContentVerify :=
  {| contentVerifyParallel := 16; contentVerifyFull := true;
     contentVerifyIncludeDeleted := false; contentRange := fun _ => true |}.

Definition reader (idx : list Info) (get : string -> option error)
    : ContentReader :=
  {| Index := idx; GetContent := get; Iterate_failure := None |}.

(** The scenario of the design document: one blob B1 of length 1000 and
    three records, of which the second is out of bounds and the third
    names a blob that does not exist. *)
Definition scenario_index : list Info :=
  [record "C1" "B1" 0 500; record "C2" "B1" 600 500; record "C3" "B2" 0 10].

Definition scenario_rep : DirectRepository :=
  {| rep_BlobReader := {| ListBlobs_items := [B1]; ListBlobs_err := None |};
     rep_ContentReader := reader scenario_index (fun _ => None) |}.

(** The same repository with a blob listing that fails. *)
Definition unlistable_rep : DirectRepository :=
  {| rep_BlobReader :=
       {| ListBlobs_items := [B1];
          ListBlobs_err := Some (External "storage unavailable") |};
     rep_ContentReader := reader scenario_index (fun _ => None) |}.

Definition scenario_blobMap : gmap string Metadata := {[ "B1" := B1 ]}.

(** A schedule of two workers over the three records of the scenario in
    which the invocations overlap and finish out of order. *)
Definition interleaved_schedule : list choice :=
  [Spawn; Spawn;
   Advance 1%nat; Advance 0%nat; Advance 1%nat; Advance 1%nat;
   Advance 0%nat; Advance 1%nat;
   Spawn;
   Advance 1%nat; Advance 1%nat; Advance 0%nat; Advance 0%nat;
   Advance 0%nat; Advance 0%nat].

(** An application with automatic maintenance enabled and no metrics
    listener. *)
Definition quiet_app : App :=
  {| enableAutomaticMaintenance := true; metricsListenAddr := "" |}.

(** A writable direct repository over the scenario, with the given
    outcomes of the maintenance procedure and of [Close]. *)
Definition repo_with (merr cerr : option error) : Repository :=
  {| ReadOnly := false; asDirect := Some scenario_rep;
     Maintenance_err := merr; Commit_err := None; Close_err := cerr |}.

(** An environment in which that repository opens. *)
Definition env_with (rep : Repository) : Env :=
  {| initPrometheus_err := None;
     openRepository := fun _ => (Some rep, None) |}.

Definition failing_action : action :=
  fun _ => ret (Some (External "action failed")).

Definition succeeding_action : action := fun _ => ret None.

(** The access mode of [repositoryWriterAction]. *)
Definition writer_mode : repositoryAccessMode :=
  {| mustBeConnected := true; disableMaintenance := false |}.

(** A direct repository opened read-only. *)
Definition read_only_repo : Repository :=
  {| ReadOnly := true; asDirect := Some scenario_rep;
     Maintenance_err := None; Commit_err := None; Close_err := None |}.

(** The error of a maintenance run that another process owns. *)
Definition not_owned : error :=
  Wrapf NotOwnedError "unable to run maintenance" [].

Arguments atomic_AddInt32 : simpl never.

(** ** The rest of the action wrappers *)

(** Modelled from the spec: [repo.WriteSession] is declared in [repo].
    Like [DirectWriteSession], it brackets the callback in a write session
    tagged with a purpose; success commits, an error aborts and is
    returned. *)
Definition WriteSession (rep : Repository) (purpose : string)
    (cb : M (option error)) : M (option error) :=
  let* _ := emit (BeginWriteSession purpose) in
  let* err := cb in
  match err with
  | Some e =>
      let* _ := emit AbortWriteSession in
      ret (Some e)
  | None =>
      let* _ := emit CommitWriteSession in
      ret (Commit_err rep)
  end.

(** [repositoryWriterAction]; the action takes the writer of the
    repository it is given, and a nil repository panics at the first
    method call on it. *)
Definition repositoryWriterAction (app : App) (env : Env)
    (act : Repository -> M (option error)) : M (option error) :=
  maybeRepositoryAction app env
    (fun rep =>
       match rep with
       | Some r => WriteSession r "repositoryWriterAction" (act r)
       | None => panic
       end)
    {| mustBeConnected := true; disableMaintenance := false |}.

(** ** The safety flag *)

(** [safetyByName]. *)
Definition safetyByName : gmap string SafetyParameters :=
  {[ "none" := SafetyNone; "full" := SafetyFull ]}.

(** The values [EnumVar(&str, "full", "none")] admits, and the default of
    the flag. *)
Definition safety_enum : list string := ["full"; "none"].
Definition safety_default : string := "full".

(** The PreAction [safetyFlagVar] attaches to the flag, on the value [str]
    of the flag: the new [*result], or the error. *)
Definition safetyFlagVar_PreAction (str : string) : result SafetyParameters :=
  match safetyByName !! str with
  | Some r => Ok r
  | None => Err (Errorf "unhandled safety level" [])
  end.

(** ** Password entry *)

Module Password.

(** The outcome of one [term.ReadPassword]. *)
Inductive read :=
| ReadOk (passBytes : string)
| ReadErr (e : error).

(** What is written to standard output. *)
Inductive out :=
| Print (s : string)
    (* fmt.Print(s) *)
| Println (s : string).
    (* fmt.Println(s); fmt.Println() is Println "" *)

(** The terminal: the outcomes of the reads to come, and what was printed
    so far.  When the outcomes are used up, a read fails with EOF. *)
Record tty := { input : list read; output : list out }.

Definition IO (A : Type) : Type := tty -> A * tty.

Definition io_ret {A} (a : A) : IO A := fun t => (a, t).

Definition io_bind {A B} (m : IO A) (k : A -> IO B) : IO B :=
  fun t => let (a, t') := m t in k a t'.

Notation "'let+' x ':=' m 'in' k" := (io_bind m (fun x => k))
  (at level 10, x pattern, m at level 100, k at level 200).

Definition print (o : out) : IO unit :=
  fun t => (tt, {| input := input t; output := output t ++ [o] |}).

Definition EOF : error := External "EOF".

(** [term.ReadPassword(int(os.Stdin.Fd()))]. *)
Definition ReadPassword : IO read :=
  fun t =>
    match input t with
    | [] => (ReadErr EOF, t)
    | r :: rest => (r, {| input := rest; output := output t |})
    end.

(** The loop of [askPass] with [remaining] iterations to go. *)
Fixpoint askPass_loop (remaining : nat) (prompt : string)
    : IO (result string) :=
  match remaining with
  | O => io_ret (Err (Errorf "can't get password" []))
  | S n =>
      let+ _ := print (Print prompt) in
      let+ r := ReadPassword in
      match r with
      | ReadErr e => io_ret (Err (Wrapf e "password prompt error" []))
      | ReadOk passBytes =>
          let+ _ := print (Println "") in
          if Nat.eqb (String.length passBytes) 0 then askPass_loop n prompt
          else io_ret (Ok passBytes)
      end
  end.

(** [askPass]. *)
Definition askPass (prompt : string) : IO (result string) :=
  askPass_loop 5 prompt.

Definition new_prompt : string := "Enter password to create new repository: ".
Definition verify_prompt : string := "Re-enter password for verification: ".
Definition mismatch_msg : string := "Passwords don't match!".

(** The loop of [askForNewRepositoryPassword]; [None] when [fuel]
    iterations did not end it. *)
Fixpoint askForNew_loop (fuel : nat) : IO (option (result string)) :=
  match fuel with
  | O => io_ret None
  | S f =>
      let+ r1 := askPass new_prompt in
      match r1 with
      | Err e => io_ret (Some (Err (Wrapf e "password entry" [])))
      | Ok p1 =>
          let+ r2 := askPass verify_prompt in
          match r2 with
          | Err e => io_ret (Some (Err (Wrapf e "password verification" [])))
          | Ok p2 =>
              if negb (String.eqb p1 p2) then
                let+ _ := print (Println mismatch_msg) in
                askForNew_loop f
              else io_ret (Some (Ok p1))
          end
      end
  end.

(** [askForNewRepositoryPassword]: every iteration that does not return
    takes at least one read, so one more iteration than there are reads
    to come is enough. *)
Definition askForNewRepositoryPassword : IO (option (result string)) :=
  fun t => askForNew_loop (S (length (input t))) t.




(** The passwords typed in a sequence of reads: the non-empty entries. *)
Fixpoint entries (l : list read) : list string :=
  match l with
  | [] => []
  | ReadOk s :: rest =>
      if Nat.eqb (String.length s) 0 then entries rest else s :: entries rest
  | ReadErr _ :: rest => entries rest
  end.

(** How often [s] was printed with [fmt.Print]. *)
Fixpoint prompts (s : string) (o : list out) : nat :=
  match o with
  | [] => 0
  | Print s' :: rest =>
      if String.eqb s s' then S (prompts s rest) else prompts s rest
  | Println _ :: rest => prompts s rest
  end.

End Password.

(** ** More closed forms used in the proofs *)

(** The progress lines of the blob listing. *)
Fixpoint listing_logs (items : list Metadata) (m : gmap string Metadata)
    : list event :=
  match items with
  | [] => []
  | bm :: rest =>
      let m' := <[BlobID bm := bm]> m in
      (if GoInt.rem (len m') 10000 =? 0
       then [LogInfof "  %v blobs..." [FInt (len m')]]
       else [])
      ++ listing_logs rest m'
  end.


(** The records [run] asks [IterateContents] for. *)
Definition selected_by (c : commandContentVerify) (rep : DirectRepository)
    : list Info :=
  selected (IterateOptions_of c) (Index (rep_ContentReader rep)).

(** What [run_blobMap] returns and emits. *)
Definition run_blobMap_result (c : commandContentVerify)
    (rep : DirectRepository) : result (gmap string Metadata) :=
  if contentVerifyFull c then Ok ∅
  else
    match ListBlobs_err (rep_BlobReader rep) with
    | Some e => Err (Wrapf e "unable to list blobs" [])
    | None => Ok (blobMap_of (ListBlobs_items (rep_BlobReader rep)) ∅)
    end.

Definition run_blobMap_trace (c : commandContentVerify)
    (rep : DirectRepository) : list event :=
  if contentVerifyFull c then []
  else
    LogInfof "Listing blobs..." [] :: CallListBlobs "" ::
    listing_logs (ListBlobs_items (rep_BlobReader rep)) ∅ ++
    match ListBlobs_err (rep_BlobReader rep) with
    | Some _ => []
    | None =>
        [LogInfof "Listed %v blobs."
           [FInt (len (blobMap_of (ListBlobs_items (rep_BlobReader rep)) ∅))]]
    end.

(** A blob listing in which the id B1 is listed twice. *)
Definition relisted_reader : BlobReader :=
  {| ListBlobs_items :=
       [B1; {| BlobID := "B2"; Length := 10 |};
        {| BlobID := "B1"; Length := 2000 |}];
     ListBlobs_err := None |}.

(** The scenario with an index that cannot be read past its second
    record. *)
Definition unreadable_index_rep : DirectRepository :=
  {| rep_BlobReader := {| ListBlobs_items := [B1]; ListBlobs_err := None |};
     rep_ContentReader :=
       {| Index := scenario_index; GetContent := fun _ => None;
          Iterate_failure := Some (2%nat, External "index unreadable") |} |}.

(** An environment in which the repository cannot be opened. *)
Definition unconnected_env : Env :=
  {| initPrometheus_err := None;
     openRepository :=
       fun _ => (None, Some (External "repository is not connected")) |}.

(** An application that serves metrics, and an environment in which the
    metrics registry cannot be initialised. *)
Definition metrics_app : App :=
  {| enableAutomaticMaintenance := true;
     metricsListenAddr := "localhost:9090" |}.

Definition no_metrics_env : Env :=
  {| initPrometheus_err := Some (External "registry");
     openRepository := fun _ => (Some (repo_with None None), None) |}.

(** An action that panics. *)
Definition panicking_action : action := fun _ => panic.

(** A repository that is not a direct one. *)
Definition remote_repo : Repository :=
  {| ReadOnly := false; asDirect := None;
     Maintenance_err := None; Commit_err := None; Close_err := None |}.

(** The access mode of an action that runs also without a repository. *)
Definition optional_mode : repositoryAccessMode :=
  {| mustBeConnected := false; disableMaintenance := true |}.

(** The error of [assertDirectRepository]. *)
Definition not_direct_error : error :=
  Errorf "operation supported only on direct repository" [].

(** A writer action that fails. *)
Definition failing_writer : Repository -> M (option error) :=
  fun _ => ret (Some (External "action failed")).

(** What [askPass] prints for one attempt that reads an entry. *)
Definition attempt (prompt : string) : list Password.out :=
  [Password.Print prompt; Password.Println ""].

(** A terminal on which nothing was printed yet. *)
Definition typed (reads : list Password.read) : Password.tty :=
  {| Password.input := reads; Password.output := [] |}.

(** A terminal session that creates a repository: a first pair of entries
    that differ, an empty entry, then the same password twice. *)
Definition new_password_session : list Password.read :=
  [Password.ReadOk "hunter2"; Password.ReadOk "hunter3";
   Password.ReadOk ""; Password.ReadOk "s3cret"; Password.ReadOk "s3cret";
   Password.ReadOk "unread"].

(** * Properties *)

(** ** Arithmetic *)

Lemma swrap32_small z : GoInt.is_int32 z -> GoInt.swrap 32 z = z.
Proof.
  unfold GoInt.is_int32, GoInt.swrap. intros Hz.
  change (2 ^ (32 - 1)) with 2147483648. change (2 ^ 32) with 4294967296.
  change (2 ^ 31) with 2147483648 in Hz.
  rewrite Z.mod_small by lia. lia.
Qed.

Lemma swrap32_range z : GoInt.is_int32 (GoInt.swrap 32 z).
Proof.
  unfold GoInt.is_int32, GoInt.swrap.
  change (2 ^ (32 - 1)) with 2147483648. change (2 ^ 32) with 4294967296.
  change (2 ^ 31) with 2147483648.
  pose proof (Z.mod_pos_bound (z + 2147483648) 4294967296). lia.
Qed.

(** Adding to a wrapped value and wrapping again is wrapping the sum. *)
Lemma swrap32_add_l a b :
  GoInt.swrap 32 (GoInt.swrap 32 a + b) = GoInt.swrap 32 (a + b).
Proof.
  unfold GoInt.swrap. f_equal.
  replace ((a + 2 ^ (32 - 1)) mod 2 ^ 32 - 2 ^ (32 - 1) + b + 2 ^ (32 - 1))
    with ((a + 2 ^ (32 - 1)) mod 2 ^ 32 + b) by lia.
  rewrite Zplus_mod_idemp_l. f_equal. lia.
Qed.

Lemma swrap32_add a b :
  GoInt.swrap 32 (GoInt.swrap 32 a + GoInt.swrap 32 b) = GoInt.swrap 32 (a + b).
Proof.
  rewrite swrap32_add_l, Z.add_comm, swrap32_add_l. f_equal. lia.
Qed.

Lemma int64_small z : - 2 ^ 63 <= z < 2 ^ 63 -> GoInt.int64 z = z.
Proof.
  unfold GoInt.int64, GoInt.swrap. intros Hz.
  change (2 ^ (64 - 1)) with 9223372036854775808.
  change (2 ^ 64) with 18446744073709551616.
  change (2 ^ 63) with 9223372036854775808 in Hz.
  rewrite Z.mod_small by lia. lia.
Qed.

Lemma uint32_add_exact a b :
  0 <= a -> 0 <= b -> a + b < 2 ^ 32 -> GoInt.uint32_add a b = a + b.
Proof.
  intros Ha Hb Hab. unfold GoInt.uint32_add, GoInt.uadd, GoInt.uwrap.
  apply Z.mod_small. lia.
Qed.

(** Whatever the width of the unsigned type of the two getters, from 1 to
    64 bits, some pair of its values has a sum that wraps to 0. *)
Lemma uadd_wraps_at_any_width w :
  1 <= w <= 64 ->
  0 <= 2 ^ w - 1 < 2 ^ w /\ 0 <= 1 < 2 ^ w /\
  GoInt.int64 (GoInt.uadd w (2 ^ w - 1) 1) = 0.
Proof.
  intros Hw.
  assert (2 <= 2 ^ w).
  { change 2 with (2 ^ 1) at 1. apply Z.pow_le_mono_r; lia. }
  repeat split; try lia.
  unfold GoInt.uadd, GoInt.uwrap.
  replace (2 ^ w - 1 + 1) with (1 * 2 ^ w) by lia.
  rewrite Z.mod_mul by lia. reflexivity.
Qed.

(** ** The per-record check *)

(** In bounds mode, with the blob present and a sum of offset and length
    that fits in 32 bits, the check succeeds exactly when the sum is at
    most the blob's length, and fails with "out of bounds" otherwise. *)
Lemma contentVerify_bounds_no_wrap c r ci blobMap bi :
  contentVerifyFull c = false ->
  blobMap !! GetPackBlobID ci = Some bi ->
  0 <= GetPackOffset ci -> 0 <= GetPackedLength ci ->
  GetPackOffset ci + GetPackedLength ci < 2 ^ 32 ->
  (contentVerify c r ci blobMap = None <->
     GetPackOffset ci + GetPackedLength ci <= Length bi) /\
  (Length bi < GetPackOffset ci + GetPackedLength ci ->
     contentVerify c r ci blobMap =
       Some (Errorf out_of_bounds_fmt
               [FStr (GetContentID ci); FStr (GetPackBlobID ci)])).
Proof.
  intros Hfull Hbi Ho Hl Hsum. unfold contentVerify.
  rewrite Hfull, Hbi, uint32_add_exact by lia.
  assert (2 ^ 32 < 2 ^ 63) by (apply Z.pow_lt_mono_r; lia).
  rewrite int64_small by lia.
  destruct (Z.gtb_spec (GetPackOffset ci + GetPackedLength ci) (Length bi));
    split; try split; intros; try done; try lia.
Qed.

(** C2 (the code at the failing input).  A record of blob B1, which is in
    the map with length 1000, at offset 1 with packed length 4294967295
    has an exact sum of offset and length of 4294967296, far beyond the
    blob; the 32-bit sum wraps to 0 before it is converted and compared,
    and the bounds-mode check succeeds. *)
Theorem contentVerify_bounds_sum_wraps :
  let ci := record "C" "B1" 1 4294967295 in
  let blobMap : gmap string Metadata := {[ "B1" := B1 ]} in
  Info_wf ci /\
  blobMap !! GetPackBlobID ci = Some B1 /\
  Length B1 < GetPackOffset ci + GetPackedLength ci /\
  contentVerify bounds_cmd (reader [] (fun _ => None)) ci blobMap = None.
Proof.
  cbn zeta. repeat split; try (vm_compute; congruence).
Qed.

(** C3.  In bounds mode a record whose pack blob is not in the blob map
    fails with the "missing blob" error, and not with "out of bounds",
    whatever its offset and length. *)
Theorem contentVerify_missing_blob c r ci (blobMap : gmap string Metadata) :
  contentVerifyFull c = false ->
  blobMap !! GetPackBlobID ci = None ->
  contentVerify c r ci blobMap =
    Some (Errorf missing_blob_fmt
            [FStr (GetContentID ci); FStr (GetPackBlobID ci)]) /\
  forall args, contentVerify c r ci blobMap <> Some (Errorf out_of_bounds_fmt args).
Proof.
  intros Hfull Hmiss. unfold contentVerify. rewrite Hfull, Hmiss.
  split; [reflexivity|]. intros args Heq. inversion Heq.
Qed.

Lemma contentVerify_missing_blob_witness :
  contentVerify bounds_cmd (reader [] (fun _ => None))
      (record "C3" "B2" 4294967295 4294967295) {[ "B1" := B1 ]} =
    Some (Errorf missing_blob_fmt [FStr "C3"; FStr "B2"]) /\
  forall args,
    contentVerify bounds_cmd (reader [] (fun _ => None))
      (record "C3" "B2" 4294967295 4294967295) {[ "B1" := B1 ]}
    <> Some (Errorf out_of_bounds_fmt args).
Proof.
  apply (contentVerify_missing_blob bounds_cmd (reader [] (fun _ => None))
           (record "C3" "B2" 4294967295 4294967295) {[ "B1" := B1 ]}).
  - reflexivity.
  - vm_compute. reflexivity.
Defined.

(** ** The monad *)

Lemma bind_val {A B} (m : M A) (k : A -> M B) a :
  fst m = Val a -> bind m k = (fst (k a), snd m ++ snd (k a)).
Proof. intros H. unfold bind. rewrite H. destruct (k a); reflexivity. Qed.

Lemma bind_ret {A B} (a : A) (k : A -> M B) : bind (ret a) k = k a.
Proof. unfold bind, ret. simpl. destruct (k a); reflexivity. Qed.

Lemma bind_emit {B} e (k : unit -> M B) :
  bind (emit e) k = (fst (k tt), e :: snd (k tt)).
Proof. unfold bind, emit. simpl. destruct (k tt); reflexivity. Qed.

Lemma bind_when {B} b e (k : unit -> M B) :
  bind (when b e) k = (fst (k tt), (if b then [e] else []) ++ snd (k tt)).
Proof.
  destruct b; simpl; [apply bind_emit|]. rewrite bind_ret. by destruct (k tt).
Qed.

(** ** The callback of [run] *)

(** What one invocation of the callback computes and emits. *)
Lemma run_cb_eq c r blobMap ci cnt :
  let err := contentVerify c r ci blobMap in
  let cnt2 := atomic_AddInt32 CTotal (atomic_AddInt32 (verdict_counter err) cnt) in
  run_cb c r blobMap ci cnt = (Val (cnt2, None), run_cb_events err ci cnt2).
Proof.
  cbn zeta. unfold run_cb, run_cb_events.
  destruct (contentVerify c r ci blobMap) as [e|]; cbn [verdict_counter];
    unfold bind, emit, ret, when; cbn [fst snd app];
    match goal with |- context [?a =? 0] => destruct (a =? 0) end;
    reflexivity.
Qed.

(** C9.  In full mode the verdict is success exactly when the fetch of the
    record's bytes succeeds; a record whose fetch fails is an error, and is
    counted as one, also when the bounds-mode check of the same record
    against the same blob map succeeds. *)
Theorem contentVerify_full_stricter c c' r ci (blobMap : gmap string Metadata) :
  contentVerifyFull c = true ->
  contentVerifyFull c' = false ->
  (contentVerify c r ci blobMap = None <->
     GetContent r (GetContentID ci) = None) /\
  (forall err cnt,
     GetContent r (GetContentID ci) = Some err ->
     contentVerify c' r ci blobMap = None ->
     contentVerify c r ci blobMap =
       Some (Wrapf err invalid_fmt [FStr (GetContentID ci)]) /\
     value (run_cb c r blobMap ci cnt) =
       Val (atomic_AddInt32 CTotal (atomic_AddInt32 CError cnt), None)).
Proof.
  intros Hfull _.
  assert (Hv : forall err, GetContent r (GetContentID ci) = Some err ->
            contentVerify c r ci blobMap =
              Some (Wrapf err invalid_fmt [FStr (GetContentID ci)])).
  { intros err Hg. unfold contentVerify. by rewrite Hfull, Hg. }
  split.
  - unfold contentVerify. rewrite Hfull.
    destruct (GetContent r (GetContentID ci)); split; congruence.
  - intros err cnt Hg _. split; [by apply Hv|].
    rewrite run_cb_eq, (Hv err Hg). reflexivity.
Qed.

Lemma contentVerify_full_stricter_witness :
  let r := reader [] (fun _ => Some (External "blob not found")) in
  let ci := record "C1" "B1" 0 500 in
  let blobMap : gmap string Metadata := {[ "B1" := B1 ]} in
  contentVerify bounds_cmd r ci blobMap = None /\
  contentVerify full_cmd r ci blobMap =
    Some (Wrapf (External "blob not found") invalid_fmt [FStr "C1"]) /\
  value (run_cb full_cmd r blobMap ci zero_counters) =
    Val ({| totalCount := 1; successCount := 0; errorCount := 1 |}, None).
Proof.
  cbn zeta.
  assert (Hb : contentVerify bounds_cmd
                 (reader [] (fun _ => Some (External "blob not found")))
                 (record "C1" "B1" 0 500) {[ "B1" := B1 ]} = None)
    by (vm_compute; reflexivity).
  split; [exact Hb|].
  apply (proj2 (contentVerify_full_stricter full_cmd bounds_cmd
                  (reader [] (fun _ => Some (External "blob not found")))
                  (record "C1" "B1" 0 500) {[ "B1" := B1 ]}
                  eq_refl eq_refl)
           (External "blob not found") zero_counters eq_refl Hb).
Defined.

(** ** Listing and iterating *)

Lemma bind_Val {A B} (a : A) (t : list event) (k : A -> M B) :
  bind (Val a, t) k = (fst (k a), t ++ snd (k a)).
Proof. unfold bind. simpl. destruct (k a); reflexivity. Qed.

Lemma value_bind {A B} (m : M A) (k : A -> M B) a :
  value m = Val a -> value (bind m k) = value (k a).
Proof. intros H. unfold value in *. by rewrite (bind_val m k a H). Qed.

Lemma trace_bind {A B} (m : M A) (k : A -> M B) a :
  value m = Val a -> trace (bind m k) = trace m ++ trace (k a).
Proof. intros H. unfold value, trace in *. by rewrite (bind_val m k a H). Qed.

Lemma readBlobMap_cb_eq bm m :
  readBlobMap_cb bm m =
    (Val (<[BlobID bm := bm]> m, None),
     if GoInt.rem (len (<[BlobID bm := bm]> m)) 10000 =? 0
     then [LogInfof "  %v blobs..." [FInt (len (<[BlobID bm := bm]> m))]]
     else []).
Proof.
  unfold readBlobMap_cb. rewrite bind_when. cbn [fst snd ret].
  by rewrite app_nil_r.
Qed.

Lemma ListBlobs_loop_readBlobMap_cb items m :
  exists tr,
    ListBlobs_loop items readBlobMap_cb m = (Val (blobMap_of items m, None), tr)
    /\ Forall (fun ev => is_log ev = true) tr.
Proof.
  revert m. induction items as [|bm items IH]; intros m.
  - exists []. split; [reflexivity | constructor].
  - destruct (IH (<[BlobID bm := bm]> m)) as (tr & Heq & Hlog).
    cbn [ListBlobs_loop blobMap_of fold_left].
    rewrite readBlobMap_cb_eq, bind_Val. fold (blobMap_of items).
    rewrite Heq. cbn [fst snd]. eexists. split; [reflexivity|].
    apply Forall_app. split; [|exact Hlog].
    destruct (_ =? _); repeat constructor.
Qed.

(** [readBlobMap] lists once, and returns the map of everything listed or
    the wrapped listing error. *)
Lemma readBlobMap_eq br :
  exists tr,
    readBlobMap br =
      (Val match ListBlobs_err br with
           | Some e => Err (Wrapf e "unable to list blobs" [])
           | None => Ok (blobMap_of (ListBlobs_items br) ∅)
           end,
       LogInfof "Listing blobs..." [] :: CallListBlobs "" :: tr)
    /\ Forall (fun ev => is_log ev = true) tr.
Proof.
  destruct (ListBlobs_loop_readBlobMap_cb (ListBlobs_items br) ∅)
    as (tr & Heq & Hlog).
  unfold readBlobMap, ListBlobs. rewrite !bind_emit, Heq, bind_Val.
  destruct (ListBlobs_err br) as [e|]; cbn [fst snd ret];
    rewrite bind_Val; cbn [fst snd ret].
  - exists tr. rewrite !app_nil_r. by split.
  - rewrite bind_emit. cbn [fst snd ret]. rewrite app_nil_r.
    eexists. split; [reflexivity|].
    apply Forall_app. split; [exact Hlog | repeat constructor].
Qed.

Lemma IterateContents_loop_run_cb c r blobMap recs cnt :
  IterateContents_loop recs (run_cb c r blobMap) cnt =
    (Val (seq_counters c r blobMap recs cnt, None),
     seq_trace c r blobMap recs cnt).
Proof.
  revert cnt. induction recs as [|ci recs IH]; intros cnt; [reflexivity|].
  cbn [IterateContents_loop seq_counters seq_trace].
  rewrite run_cb_eq. cbn zeta. rewrite bind_Val. fold (cb_counters c r blobMap ci cnt).
  rewrite IH. reflexivity.
Qed.

(** The iteration phase of [run]: the counters after the visited records,
    and the error of the iteration itself. *)
Lemma run_iterate_eq c rep blobMap :
  let r := rep_ContentReader rep in
  let recs := visited r (IterateOptions_of c) in
  run_iterate c rep blobMap =
    (Val (seq_counters c r blobMap recs zero_counters,
          match Iterate_failure r with
          | Some (_, e) => Some e
          | None => None
          end),
     LogInfof "Verifying all contents..." []
     :: CallIterateContents (contentVerifyParallel c)
          (contentVerifyIncludeDeleted c)
     :: seq_trace c r blobMap recs zero_counters).
Proof.
  cbn zeta. unfold run_iterate, IterateContents, visited.
  rewrite !bind_emit.
  destruct (Iterate_failure (rep_ContentReader rep)) as [[k e]|].
  - rewrite IterateContents_loop_run_cb, bind_Val. cbn [fst snd ret].
    rewrite app_nil_r. reflexivity.
  - rewrite IterateContents_loop_run_cb. reflexivity.
Qed.

(** ** The verification run *)

Lemma run_report_eq cnt :
  run_report cnt =
    (Val (if errorCount cnt =? 0 then None
          else Some (Errorf encountered_fmt [FInt (errorCount cnt)])),
     [LogInfof finished_fmt [FInt (totalCount cnt); FInt (errorCount cnt)]]).
Proof.
  unfold run_report. rewrite bind_emit.
  destruct (errorCount cnt =? 0); reflexivity.
Qed.

Lemma run_from_value c rep blobMap cnt :
  value (run_iterate c rep blobMap) = Val (cnt, None) ->
  value (run_from c rep blobMap) =
    Val (if errorCount cnt =? 0 then None
         else Some (Errorf encountered_fmt [FInt (errorCount cnt)]),
         Some cnt).
Proof.
  intros Hit. unfold run_from.
  rewrite (value_bind _ _ _ Hit).
  rewrite run_report_eq, bind_Val. reflexivity.
Qed.

Lemma run_value c rep blobMap cnt :
  value (run_blobMap c rep) = Val (Ok blobMap) ->
  value (run_iterate c rep blobMap) = Val (cnt, None) ->
  value (run c rep) =
    Val (if errorCount cnt =? 0 then None
         else Some (Errorf encountered_fmt [FInt (errorCount cnt)])).
Proof.
  intros Hbm Hit. unfold run.
  assert (Hrc : value (run_counters c rep) =
                Val (if errorCount cnt =? 0 then None
                     else Some (Errorf encountered_fmt [FInt (errorCount cnt)]),
                     Some cnt)).
  { unfold run_counters. rewrite (value_bind _ _ _ Hbm).
    by apply run_from_value. }
  rewrite (value_bind _ _ _ Hrc). reflexivity.
Qed.

(** C5.  When the blob map was built and the iteration over the selected
    records completed with the counters [cnt], [run] returns nil exactly
    when the error counter is zero, and otherwise the error "encountered
    %v errors" whose only argument is the error counter. *)
Theorem run_result_iff_errorCount c rep blobMap cnt :
  value (run_blobMap c rep) = Val (Ok blobMap) ->
  value (run_iterate c rep blobMap) = Val (cnt, None) ->
  (value (run c rep) = Val None <-> errorCount cnt = 0) /\
  (errorCount cnt <> 0 ->
   value (run c rep) =
     Val (Some (Errorf encountered_fmt [FInt (errorCount cnt)]))).
Proof.
  intros Hbm Hit. rewrite (run_value c rep blobMap cnt Hbm Hit).
  destruct (Z.eqb_spec (errorCount cnt) 0) as [H0|H0].
  - split; [split; auto | intros; contradiction].
  - split; [split; [intros H; inversion H | intros; contradiction] | reflexivity].
Qed.

Lemma run_result_iff_errorCount_witness :
  (value (run bounds_cmd scenario_rep) = Val None <-> 2 = 0) /\
  (2 <> 0 ->
   value (run bounds_cmd scenario_rep) =
     Val (Some (Errorf encountered_fmt [FInt 2]))).
Proof.
  apply (run_result_iff_errorCount bounds_cmd scenario_rep {[ "B1" := B1 ]}
           {| totalCount := 3; successCount := 1; errorCount := 2 |});
    vm_compute; reflexivity.
Defined.

(** The design document's scenario: three records, one success, two
    errors. *)
Example run_scenario :
  value (run_counters bounds_cmd scenario_rep) =
    Val (Some (Errorf encountered_fmt [FInt 2]),
         Some {| totalCount := 3; successCount := 1; errorCount := 2 |}).
Proof. vm_compute. reflexivity. Qed.

Lemma blobMap_of_lookup_Some items (m : gmap string Metadata) id bm :
  blobMap_of items m !! id = Some bm ->
  (bm ∈ items /\ BlobID bm = id) \/ m !! id = Some bm.
Proof.
  revert m. induction items as [|b items IH]; intros m; cbn; [by right|].
  intros H. destruct (IH _ H) as [[Hin Hid]|Hm].
  - left. split; [by right | done].
  - destruct (decide (BlobID b = id)) as [<-|Hne].
    + rewrite lookup_insert_eq in Hm. inversion Hm; subst. left.
      split; [by left | done].
    + rewrite lookup_insert_ne in Hm by done. by right.
Qed.

Lemma blobMap_of_lookup_keep items (m : gmap string Metadata) id :
  is_Some (m !! id) -> is_Some (blobMap_of items m !! id).
Proof.
  revert m. induction items as [|b items IH]; intros m Hm; cbn; [done|].
  apply IH. destruct (decide (BlobID b = id)) as [<-|Hne].
  - rewrite lookup_insert_eq. eauto.
  - by rewrite lookup_insert_ne.
Qed.

Lemma blobMap_of_lookup_listed items (m : gmap string Metadata) bm :
  bm ∈ items -> is_Some (blobMap_of items m !! BlobID bm).
Proof.
  revert m. induction items as [|b items IH]; intros m Hin.
  - by apply elem_of_nil in Hin.
  - apply elem_of_cons in Hin as [->|Hin]; cbn.
    + apply blobMap_of_lookup_keep. rewrite lookup_insert_eq. eauto.
    + by apply IH.
Qed.

Section TraceOfRun.

(** A property of events that holds of log lines, of the call of
    IterateContents and of counter increments. *)
Variable P : event -> Prop.
Hypothesis P_Infof : forall fmt args, P (LogInfof fmt args).
Hypothesis P_Errorf : forall fmt e, P (LogErrorf fmt e).
Hypothesis P_Iterate : forall n d, P (CallIterateContents n d).
Hypothesis P_Add : forall k ci, P (AtomicAddInt32 k ci).

Lemma run_cb_events_Forall err ci cnt :
  Forall P (run_cb_events err ci cnt).
Proof.
  unfold run_cb_events.
  destruct err, (_ =? _); repeat (constructor; auto).
Qed.

Lemma seq_trace_Forall c r blobMap recs cnt :
  Forall P (seq_trace c r blobMap recs cnt).
Proof.
  revert cnt. induction recs as [|ci recs IH]; intros cnt; cbn; [constructor|].
  apply Forall_app. split; [apply run_cb_events_Forall | apply IH].
Qed.

Lemma run_from_Forall c rep blobMap :
  Forall P (trace (run_from c rep blobMap)).
Proof.
  unfold run_from, trace. pose proof (run_iterate_eq c rep blobMap) as Hit.
  cbn zeta in Hit. rewrite Hit, bind_Val. cbn [snd].
  repeat (apply Forall_cons; split; [auto|]).
  apply Forall_app. split; [apply seq_trace_Forall|].
  destruct (Iterate_failure (rep_ContentReader rep)) as [[k e]|].
  - constructor.
  - rewrite run_report_eq, bind_Val. repeat (constructor; auto).
Qed.

End TraceOfRun.

Lemma run_from_no_ListBlobs c rep blobMap :
  Forall (fun ev => is_ListBlobs ev = false) (trace (run_from c rep blobMap)).
Proof. by apply run_from_Forall. Qed.

Lemma trace_run c rep : trace (run c rep) = trace (run_counters c rep).
Proof.
  unfold run, trace, bind.
  destruct (run_counters c rep) as [[[res cnt]| |] tr]; cbn;
    by rewrite ?app_nil_r.
Qed.

Lemma value_run c rep res cnt :
  value (run_counters c rep) = Val (res, cnt) -> value (run c rep) = Val res.
Proof. intros H. unfold run. by rewrite (value_bind _ _ _ H). Qed.

Lemma run_blobMap_bounds c rep :
  contentVerifyFull c = false ->
  exists tr,
    run_blobMap c rep =
      (Val match ListBlobs_err (rep_BlobReader rep) with
           | Some e => Err (Wrapf e "unable to list blobs" [])
           | None => Ok (blobMap_of (ListBlobs_items (rep_BlobReader rep)) ∅)
           end,
       LogInfof "Listing blobs..." [] :: CallListBlobs "" :: tr)
    /\ Forall (fun ev => is_log ev = true) tr.
Proof.
  intros Hfull. destruct (readBlobMap_eq (rep_BlobReader rep)) as (tr & Heq & Hlog).
  exists tr. split; [|exact Hlog].
  unfold run_blobMap. rewrite Hfull. cbn [negb]. rewrite Heq, bind_Val.
  destruct (ListBlobs_err (rep_BlobReader rep)); cbn [fst snd ret];
    by rewrite app_nil_r.
Qed.

Lemma log_not_record_event tr :
  Forall (fun ev => is_log ev = true) tr ->
  Forall (fun ev => is_record_event ev = false) tr.
Proof. intros H. eapply Forall_impl; [exact H|]. by intros []. Qed.

(** C6.  In bounds mode [run] lists the blobs first.  When the listing
    fails, [run] returns the listing error, wrapped, the counters are never
    reached, and the trace holds no call of IterateContents and no counter
    increment.  When it succeeds, every listed blob is in the map, the
    trace of [run] is the trace of the listing, which holds the call of
    ListBlobs and no event of the iteration, followed by the trace of the
    rest of [run] on that map, which holds no call of ListBlobs.  In full
    mode the map is empty, nothing is emitted for it, and the trace of
    [run] holds no call of ListBlobs. *)
Theorem run_listing_gate c rep :
  let br := rep_BlobReader rep in
  (contentVerifyFull c = false ->
   forall e, ListBlobs_err br = Some e ->
     value (run_counters c rep) =
       Val (Some (Wrapf e "unable to list blobs" []), None) /\
     value (run c rep) = Val (Some (Wrapf e "unable to list blobs" [])) /\
     Forall (fun ev => is_record_event ev = false) (trace (run c rep))) /\
  (contentVerifyFull c = false ->
   ListBlobs_err br = None ->
     exists tr1,
       let blobMap := blobMap_of (ListBlobs_items br) ∅ in
       run_blobMap c rep = (Val (Ok blobMap), tr1) /\
       (forall bm, bm ∈ ListBlobs_items br -> is_Some (blobMap !! BlobID bm)) /\
       (forall id bm, blobMap !! id = Some bm ->
                      bm ∈ ListBlobs_items br /\ BlobID bm = id) /\
       CallListBlobs "" ∈ tr1 /\
       Forall (fun ev => is_record_event ev = false) tr1 /\
       trace (run c rep) = tr1 ++ trace (run_from c rep blobMap) /\
       Forall (fun ev => is_ListBlobs ev = false)
         (trace (run_from c rep blobMap))) /\
  (contentVerifyFull c = true ->
     run_blobMap c rep = (Val (Ok ∅), []) /\
     trace (run c rep) = trace (run_from c rep ∅) /\
     Forall (fun ev => is_ListBlobs ev = false) (trace (run c rep))).
Proof.
  cbn zeta. split; [|split].
  - intros Hfull e He.
    destruct (run_blobMap_bounds c rep Hfull) as (tr & Heq & Hlog).
    rewrite He in Heq.
    assert (Hrc : run_counters c rep =
                  (Val (Some (Wrapf e "unable to list blobs" []), None),
                   LogInfof "Listing blobs..." [] :: CallListBlobs "" :: tr)).
    { unfold run_counters. rewrite Heq, bind_Val. cbn [fst snd ret].
      by rewrite app_nil_r. }
    split; [by rewrite Hrc|]. split.
    + apply (value_run c rep _ None). by rewrite Hrc.
    + rewrite trace_run, Hrc. cbn [trace snd].
      repeat (apply Forall_cons; split; [reflexivity|]).
      by apply log_not_record_event.
  - intros Hfull He.
    destruct (run_blobMap_bounds c rep Hfull) as (tr & Heq & Hlog).
    rewrite He in Heq. eexists. cbn zeta.
    split; [exact Heq|]. split; [|split; [|split; [|split; [|split]]]].
    + intros bm Hin. by apply blobMap_of_lookup_listed.
    + intros id bm Hl.
      destruct (blobMap_of_lookup_Some _ _ _ _ Hl) as [H|H]; [exact H|].
      by rewrite lookup_empty in H.
    + apply elem_of_cons. right. apply elem_of_cons. by left.
    + repeat (apply Forall_cons; split; [reflexivity|]).
      by apply log_not_record_event.
    + rewrite trace_run. unfold run_counters, trace.
      rewrite Heq, bind_Val. reflexivity.
    + apply run_from_no_ListBlobs.
  - intros Hfull.
    assert (Hbm : run_blobMap c rep = (Val (Ok ∅), [])).
    { unfold run_blobMap. by rewrite Hfull. }
    assert (Htr : trace (run c rep) = trace (run_from c rep ∅)).
    { rewrite trace_run. unfold run_counters, trace.
      rewrite Hbm, bind_Val. reflexivity. }
    split; [exact Hbm|]. split; [exact Htr|].
    rewrite Htr. apply run_from_no_ListBlobs.
Qed.

Lemma run_listing_gate_witness :
  value (run_counters bounds_cmd unlistable_rep) =
    Val (Some (Wrapf (External "storage unavailable") "unable to list blobs" []),
         None) /\
  value (run bounds_cmd unlistable_rep) =
    Val (Some (Wrapf (External "storage unavailable") "unable to list blobs" [])) /\
  Forall (fun ev => is_record_event ev = false)
    (trace (run bounds_cmd unlistable_rep)).
Proof.
  apply (proj1 (run_listing_gate bounds_cmd unlistable_rep)
           eq_refl (External "storage unavailable") eq_refl).
Defined.

(** ** Interleaved callbacks *)

Lemma adds_app k t1 t2 : adds k (t1 ++ t2) = adds k t1 ++ adds k t2.
Proof.
  induction t1 as [|ev t1 IH]; [reflexivity|].
  destruct ev as [| | | |k' ci| | | | | | | | | | |]; cbn; try exact IH.
  destruct k, k'; cbn; by rewrite ?IH.
Qed.

Lemma after_increments_S n :
  GoInt.int32_add (after_increments n) 1 = after_increments (S n).
Proof.
  unfold GoInt.int32_add, after_increments.
  rewrite swrap32_add_l. f_equal. lia.
Qed.

Lemma after_increments_add n m :
  GoInt.int32_add (after_increments n) (after_increments m) =
    after_increments (n + m).
Proof.
  unfold GoInt.int32_add, after_increments.
  rewrite swrap32_add. f_equal. lia.
Qed.

Lemma after_increments_small n :
  Z.of_nat n < 2 ^ 31 -> after_increments n = Z.of_nat n.
Proof.
  intros Hn. apply swrap32_small. unfold GoInt.is_int32. lia.
Qed.

Section Interleaving.

Variable c : commandContentVerify.
Variable r : ContentReader.
Variable blobMap : gmap string Metadata.

Lemma flat_map_advance (f : worker -> list Info) ws i w w' a :
  ws !! i = Some w ->
  a ++ owes f w' = f w ->
  a ++ flat_map f match w' with
                  | Some w1 => <[i := w1]> ws
                  | None => delete i ws
                  end ≡ₚ flat_map f ws.
Proof.
  intros Hi Ha.
  assert (Hlt : (i < length ws)%nat) by (eapply lookup_lt_Some; eauto).
  transitivity (flat_map f (take i ws ++ w :: drop (S i) ws));
    [|by rewrite take_drop_middle].
  destruct w' as [w1|]; cbn [owes] in Ha.
  - rewrite insert_take_drop by done. rewrite !flat_map_app.
    cbn [flat_map]. rewrite <- Ha. solve_Permutation.
  - rewrite delete_take_drop. rewrite !flat_map_app.
    cbn [flat_map]. rewrite <- Ha, app_nil_r. solve_Permutation.
Qed.

Lemma advance_total w cnt :
  adds CTotal (advance c r blobMap w cnt).2
    ++ owes owes_total (advance c r blobMap w cnt).1.1 = owes_total w.
Proof.
  destruct w as [ci|ci [e|]|ci|ci t]; cbn; try reflexivity.
  - by destruct (contentVerify c r ci blobMap).
  - by destruct (_ =? _).
Qed.

Lemma advance_verdict w cnt :
  (adds CSuccess (advance c r blobMap w cnt).2
     ++ adds CError (advance c r blobMap w cnt).2)
    ++ owes owes_verdict (advance c r blobMap w cnt).1.1 = owes_verdict w.
Proof.
  destruct w as [ci|ci [e|]|ci|ci t]; cbn; try reflexivity.
  - by destruct (contentVerify c r ci blobMap).
  - by destruct (_ =? _).
Qed.

Lemma advance_counter w cnt k n :
  get_counter k cnt = after_increments n ->
  get_counter k (advance c r blobMap w cnt).1.2 =
    after_increments (n + length (adds k (advance c r blobMap w cnt).2)).
Proof.
  intros Hk.
  destruct w as [ci|ci [e|]|ci|ci t]; cbn [advance fst snd].
  - destruct (contentVerify c r ci blobMap); cbn; by rewrite Nat.add_0_r.
  - destruct k; unfold atomic_AddInt32;
      cbn [get_counter totalCount successCount errorCount adds length] in *;
      rewrite ?Nat.add_0_r, ?Nat.add_1_r, ?Hk;
      auto using after_increments_S.
  - destruct k; unfold atomic_AddInt32;
      cbn [get_counter totalCount successCount errorCount adds length] in *;
      rewrite ?Nat.add_0_r, ?Nat.add_1_r, ?Hk;
      auto using after_increments_S.
  - destruct k; unfold atomic_AddInt32;
      cbn [get_counter totalCount successCount errorCount adds length] in *;
      rewrite ?Nat.add_0_r, ?Nat.add_1_r, ?Hk;
      auto using after_increments_S.
  - destruct (_ =? _); cbn; by rewrite Nat.add_0_r.
Qed.

Lemma advance_sound w cnt :
  worker_ok c r blobMap w ->
  Forall (fun ci => contentVerify c r ci blobMap = None)
    (adds CSuccess (advance c r blobMap w cnt).2) /\
  Forall (fun ci => contentVerify c r ci blobMap <> None)
    (adds CError (advance c r blobMap w cnt).2) /\
  Forall (worker_ok c r blobMap)
    (owes (fun w1 => [w1]) (advance c r blobMap w cnt).1.1).
Proof.
  intros Hok.
  destruct w as [ci|ci [e|]|ci|ci t]; cbn in *.
  - destruct (contentVerify c r ci blobMap) eqn:Hcv; repeat constructor;
      cbn; congruence.
  - repeat constructor. congruence.
  - repeat constructor. congruence.
  - repeat constructor.
  - destruct (_ =? _); repeat constructor.
Qed.

Lemma Forall_advance (P : worker -> Prop) ws i (w' : option worker) :
  Forall P ws ->
  Forall P (owes (fun w1 => [w1]) w') ->
  Forall P match w' with
           | Some w1 => <[i := w1]> ws
           | None => delete i ws
           end.
Proof.
  intros Hws Hw'. destruct w' as [w1|]; cbn in Hw'.
  - apply Forall_insert; [done|]. by inversion Hw'.
  - by apply Forall_delete.
Qed.

Lemma pinv_pinit recs : pinv c r blobMap recs (pinit recs).
Proof.
  split; cbn; try constructor; try done.
  by intros [].
Qed.

Lemma pinv_pstep recs parallel ch st st' :
  pinv c r blobMap recs st ->
  pstep c r blobMap parallel ch st = Some st' ->
  pinv c r blobMap recs st'.
Proof.
  intros [Hc Ht Hv Hs He Hw] Hstep. destruct ch as [|i]; cbn in Hstep.
  - destruct (p_pending st) as [|ci rest] eqn:Hp; [done|].
    destruct (_ <? _); [|done]. inversion Hstep; subst; clear Hstep.
    split; cbn; try done.
    + rewrite flat_map_app. cbn. rewrite <- Ht. solve_Permutation.
    + rewrite flat_map_app. cbn. rewrite <- Hv. solve_Permutation.
    + apply Forall_app. split; [done | by repeat constructor].
  - destruct (p_workers st !! i) as [w|] eqn:Hi; [|done].
    assert (Hwok : worker_ok c r blobMap w).
    { eapply Forall_lookup_1; eauto. }
    pose proof (advance_total w (p_counters st)) as Hat.
    pose proof (advance_verdict w (p_counters st)) as Hav.
    pose proof (fun k n => advance_counter w (p_counters st) k n) as Hac.
    pose proof (advance_sound w (p_counters st) Hwok) as (Has & Hae & Haw).
    destruct (advance c r blobMap w (p_counters st)) as [[w' cnt] evs].
    cbn [fst snd] in *. inversion Hstep; subst; clear Hstep.
    split; cbn [p_counters p_trace p_workers p_pending];
      rewrite ?adds_app, ?length_app.
    + intros k. rewrite adds_app, length_app. by apply Hac.
    + rewrite <- Ht.
      rewrite <- (flat_map_advance owes_total _ i w w' _ Hi Hat).
      solve_Permutation.
    + rewrite <- Hv.
      rewrite <- (flat_map_advance owes_verdict _ i w w' _ Hi Hav).
      solve_Permutation.
    + by apply Forall_app.
    + by apply Forall_app.
    + by apply Forall_advance.
Qed.

Lemma pinv_pexec recs parallel sched st st' :
  pinv c r blobMap recs st ->
  pexec c r blobMap parallel sched st = Some st' ->
  pinv c r blobMap recs st'.
Proof.
  revert st. induction sched as [|ch sched IH]; intros st Hinv Hex; cbn in Hex.
  - by inversion Hex; subst.
  - destruct (pstep c r blobMap parallel ch st) as [st1|] eqn:Hstep; [|done].
    eapply IH; [|exact Hex]. eapply pinv_pstep; eauto.
Qed.

End Interleaving.

Lemma filter_all {A} (P : A -> Prop) `{forall x, Decision (P x)} (l : list A) :
  Forall P l -> filter P l = l.
Proof.
  induction 1 as [|x l Hx _ IH]; [reflexivity|].
  rewrite filter_cons_True by done. by rewrite IH.
Qed.

Lemma filter_none {A} (P : A -> Prop) `{forall x, Decision (P x)} (l : list A) :
  Forall (fun x => ~ P x) l -> filter P l = [].
Proof.
  induction 1 as [|x l Hx _ IH]; [reflexivity|].
  by rewrite filter_cons_False.
Qed.

Section Completion.

Variable c : commandContentVerify.
Variable r : ContentReader.
Variable blobMap : gmap string Metadata.

Lemma split_by_verdict (S E recs : list Info) :
  S ++ E ≡ₚ recs ->
  Forall (fun ci => contentVerify c r ci blobMap = None) S ->
  Forall (fun ci => contentVerify c r ci blobMap <> None) E ->
  S ≡ₚ passing c r blobMap recs /\ E ≡ₚ failing c r blobMap recs.
Proof.
  intros Hperm HS HE. unfold passing, failing. rewrite <- Hperm.
  rewrite !filter_app.
  rewrite (filter_all _ S HS), (filter_all _ E HE).
  rewrite (filter_none _ E), (filter_none _ S).
  - by rewrite app_nil_r.
  - eapply Forall_impl; [exact HS|]. intros ci Hci Hn. by apply Hn.
  - eapply Forall_impl; [exact HE|]. done.
Qed.

Lemma pexec_app parallel s1 s2 st :
  pexec c r blobMap parallel (s1 ++ s2) st =
    match pexec c r blobMap parallel s1 st with
    | Some st1 => pexec c r blobMap parallel s2 st1
    | None => None
    end.
Proof.
  revert st. induction s1 as [|ch s1 IH]; intros st; cbn; [reflexivity|].
  destruct (pstep c r blobMap parallel ch st); [apply IH | reflexivity].
Qed.

(** One invocation run alone does what [run_cb] does. *)
Lemma pexec_one parallel ci rest cnt tr :
  1 <= parallel ->
  pexec c r blobMap parallel
    [Spawn; Advance 0%nat; Advance 0%nat; Advance 0%nat; Advance 0%nat]
    {| p_pending := ci :: rest; p_workers := [];
       p_counters := cnt; p_trace := tr |} =
  Some {| p_pending := rest; p_workers := [];
          p_counters := cb_counters c r blobMap ci cnt;
          p_trace := tr ++ run_cb_events (contentVerify c r ci blobMap) ci
                             (cb_counters c r blobMap ci cnt) |}.
Proof.
  intros Hp. cbn [pexec pstep p_pending p_workers length].
  destruct (Z.ltb_spec (Z.of_nat 0) parallel) as [_|]; [|lia].
  unfold cb_counters, run_cb_events. cbn.
  destruct (contentVerify c r ci blobMap) as [e|];
    cbn; rewrite <- ?app_assoc; reflexivity.
Qed.

(** The schedule of [IterateContents] is enabled for every parallelism
    of at least 1, and runs to completion. *)
Lemma pexec_sequential_schedule parallel recs cnt tr :
  1 <= parallel ->
  pexec c r blobMap parallel (sequential_schedule recs)
    {| p_pending := recs; p_workers := [];
       p_counters := cnt; p_trace := tr |} =
  Some {| p_pending := []; p_workers := [];
          p_counters := seq_counters c r blobMap recs cnt;
          p_trace := tr ++ seq_trace c r blobMap recs cnt |}.
Proof.
  intros Hp. revert cnt tr.
  induction recs as [|ci recs IH]; intros cnt tr.
  - cbn. by rewrite app_nil_r.
  - change (sequential_schedule (ci :: recs))
      with ([Spawn; Advance 0%nat; Advance 0%nat; Advance 0%nat;
             Advance 0%nat] ++ sequential_schedule recs).
    rewrite pexec_app, pexec_one by done. rewrite IH.
    cbn [seq_counters seq_trace]. by rewrite <- app_assoc.
Qed.

End Completion.

(** The state of the counters and of the trace when an execution is
    complete. *)
Lemma counters_balance_aux
    c r blobMap parallel recs sched st :
  pexec c r blobMap parallel sched (pinit recs) = Some st ->
  pdone st = true ->
  let cnt := p_counters st in
  let tr := p_trace st in
  totalCount cnt = GoInt.int32_add (successCount cnt) (errorCount cnt) /\
  adds CTotal tr ≡ₚ recs /\
  adds CSuccess tr ++ adds CError tr ≡ₚ recs /\
  adds CSuccess tr ≡ₚ passing c r blobMap recs /\
  adds CError tr ≡ₚ failing c r blobMap recs /\
  totalCount cnt = after_increments (length recs) /\
  successCount cnt = after_increments (length (passing c r blobMap recs)) /\
  errorCount cnt = after_increments (length (failing c r blobMap recs)) /\
  (Z.of_nat (length recs) < 2 ^ 31 ->
   totalCount cnt = successCount cnt + errorCount cnt).
Proof.
  intros Hex Hdone.
  pose proof (pinv_pexec c r blobMap recs parallel sched _ _
                (pinv_pinit c r blobMap recs) Hex) as [Hc Ht Hv Hs He _].
  unfold pdone in Hdone.
  destruct (p_pending st); [|done]. destruct (p_workers st); [|done].
  cbn zeta. cbn [flat_map] in Ht, Hv. rewrite !app_nil_r in Ht, Hv.
  destruct (split_by_verdict c r blobMap _ _ _ Hv Hs He) as [HS HE].
  pose proof (Hc CTotal) as HcT. pose proof (Hc CSuccess) as HcS.
  pose proof (Hc CError) as HcE. cbn [get_counter] in HcT, HcS, HcE.
  assert (Hlen : length recs =
                 (length (adds CSuccess (p_trace st))
                  + length (adds CError (p_trace st)))%nat).
  { rewrite <- Hv. apply length_app. }
  rewrite HcT, HcS, HcE, after_increments_add.
  rewrite <- HS, <- HE, Ht, <- Hlen.
  repeat split; try done.
  intros Hsmall.
  rewrite !after_increments_small by lia. lia.
Qed.

(** C4.  Run the callbacks of [run] over the records [recs] under any
    parallelism and any schedule of their steps.  When every record has
    been handed out and every invocation has returned, the total counter
    equals the (int32) sum of the success and error counters; total was
    incremented once for each record; success and error together were
    incremented once for each record, success for the records the check
    accepts and error for those it rejects; and each counter holds the
    number of its increments. *)
Theorem counters_balance_under_any_schedule
    c r blobMap parallel recs sched st :
  pexec c r blobMap parallel sched (pinit recs) = Some st ->
  pdone st = true ->
  let cnt := p_counters st in
  let tr := p_trace st in
  totalCount cnt = GoInt.int32_add (successCount cnt) (errorCount cnt) /\
  adds CTotal tr ≡ₚ recs /\
  adds CSuccess tr ++ adds CError tr ≡ₚ recs /\
  adds CSuccess tr ≡ₚ passing c r blobMap recs /\
  adds CError tr ≡ₚ failing c r blobMap recs /\
  totalCount cnt = after_increments (length recs) /\
  successCount cnt = after_increments (length (passing c r blobMap recs)) /\
  errorCount cnt = after_increments (length (failing c r blobMap recs)) /\
  (Z.of_nat (length recs) < 2 ^ 31 ->
   totalCount cnt = successCount cnt + errorCount cnt).
Proof. apply counters_balance_aux. Qed.

Lemma counters_balance_under_any_schedule_witness :
  exists st,
    pexec bounds_cmd (rep_ContentReader scenario_rep) scenario_blobMap 2
      interleaved_schedule (pinit scenario_index) = Some st /\
    pdone st = true /\
    p_counters st = {| totalCount := 3; successCount := 1; errorCount := 2 |} /\
    totalCount (p_counters st) =
      GoInt.int32_add (successCount (p_counters st)) (errorCount (p_counters st)) /\
    adds CTotal (p_trace st) ≡ₚ scenario_index.
Proof.
  eexists. split; [vm_compute; reflexivity|].
  match goal with
  | |- pdone ?s = true /\ _ =>
      assert (Hex : pexec bounds_cmd (rep_ContentReader scenario_rep)
                      scenario_blobMap 2 interleaved_schedule
                      (pinit scenario_index) = Some s)
        by (vm_compute; reflexivity);
      assert (Hdone : pdone s = true) by reflexivity;
      pose proof (counters_balance_under_any_schedule _ _ _ _ _ _ s
                    Hex Hdone) as H
  end.
  cbn zeta in H.
  split; [reflexivity|]. split; [reflexivity|].
  destruct H as (Hbal & Htotal & _).
  split; [exact Hbal | exact Htotal].
Defined.

(** The iteration of [run] itself is the sequential schedule: its counters
    balance as well. *)
Lemma run_counters_balance c rep res cnt :
  value (run_counters c rep) = Val (res, Some cnt) ->
  totalCount cnt = GoInt.int32_add (successCount cnt) (errorCount cnt) /\
  exists blobMap,
    cnt = seq_counters c (rep_ContentReader rep) blobMap
            (visited (rep_ContentReader rep) (IterateOptions_of c))
            zero_counters.
Proof.
  intros Hrun.
  assert (Hfrom : exists blobMap,
             value (run_from c rep blobMap) = Val (res, Some cnt)).
  { unfold run_counters, value in Hrun.
    destruct (run_blobMap c rep) as [[[m|e]| |] tr] eqn:Hbm;
      unfold bind in Hrun; cbn [fst snd] in Hrun.
    - exists m. unfold value. by destruct (run_from c rep m).
    - by inversion Hrun.
    - done.
    - done. }
  destruct Hfrom as (blobMap & Hfrom).
  unfold run_from, value in Hfrom.
  pose proof (run_iterate_eq c rep blobMap) as Hit. cbn zeta in Hit.
  rewrite Hit, bind_Val in Hfrom. cbn [fst] in Hfrom.
  destruct (Iterate_failure (rep_ContentReader rep)) as [[k e]|] eqn:Hfail;
    [by inversion Hfrom|].
  rewrite run_report_eq, bind_Val in Hfrom. cbn [fst ret] in Hfrom.
  inversion Hfrom as [[Hres Hcnt]].
  split; [|by exists blobMap].
  set (recs := visited _ _).
  pose proof (pexec_sequential_schedule c (rep_ContentReader rep) blobMap 1
                recs zero_counters [] ltac:(lia)) as Hseq.
  apply (counters_balance_aux c (rep_ContentReader rep) blobMap 1 recs
           (sequential_schedule recs) _ Hseq eq_refl).
Qed.

(** ** Automatic maintenance *)

Lemma maybeRunMaintenance_closed app rep :
  maintenance_gate app rep = false ->
  maybeRunMaintenance app rep = (Val None, []).
Proof.
  unfold maintenance_gate, maybeRunMaintenance. intros Hgate.
  destruct (enableAutomaticMaintenance app); [|reflexivity].
  destruct (ReadOnly rep); [reflexivity|].
  destruct (asDirect rep) as [dr|]; [|reflexivity].
  cbn [andb negb] in Hgate. apply bool_decide_eq_false in Hgate.
  exfalso. apply Hgate. eauto.
Qed.

Lemma maybeRunMaintenance_open app rep :
  maintenance_gate app rep = true ->
  maybeRunMaintenance app rep =
    (Val (if errors_As_NotOwned (maintenance_session_err rep) then None
          else Wrap (maintenance_session_err rep) "error running maintenance"),
     maintenance_session_events rep).
Proof.
  unfold maintenance_gate, maybeRunMaintenance. intros Hgate.
  apply andb_true_iff in Hgate as [Hgate Hd].
  apply andb_true_iff in Hgate as [He Hro].
  rewrite He. destruct (ReadOnly rep); [done|]. cbn [negb].
  apply bool_decide_eq_true in Hd as [dr Hd]. rewrite Hd.
  unfold DirectWriteSession, maintenance_session_err, maintenance_session_events.
  unfold bind, emit, ret. cbn [fst snd Datatypes.app].
  destruct (Maintenance_err rep) as [e|]; cbn [fst snd Datatypes.app];
    destruct (errors_As_NotOwned _); reflexivity.
Qed.

(** [maybeRunMaintenance] always returns. *)
Lemma maybeRunMaintenance_returns app rep :
  exists merr, value (maybeRunMaintenance app rep) = Val merr.
Proof.
  destruct (maintenance_gate app rep) eqn:Hgate.
  - rewrite (maybeRunMaintenance_open _ _ Hgate). eauto.
  - rewrite (maybeRunMaintenance_closed _ _ Hgate). eauto.
Qed.

(** C7.  [maybeRunMaintenance] returns nil and emits nothing, so opens no
    write session, when automatic maintenance is disabled, the repository
    is read-only, or it is not a direct repository.  When it does run the
    maintenance procedure, in a write session, and the procedure fails with
    an error whose chain holds a NotOwnedError, it returns nil as well. *)
Theorem maybeRunMaintenance_gate_and_NotOwned app rep :
  (enableAutomaticMaintenance app = false \/ ReadOnly rep = true \/
   asDirect rep = None ->
   maybeRunMaintenance app rep = (Val None, [])) /\
  (forall e,
     enableAutomaticMaintenance app = true -> ReadOnly rep = false ->
     is_Some (asDirect rep) ->
     Maintenance_err rep = Some e -> chain_has_NotOwned e = true ->
     maybeRunMaintenance app rep =
       (Val None,
        [BeginWriteSession "maybeRunMaintenance";
         CallMaintenanceRun ModeAuto false SafetyFull;
         AbortWriteSession])).
Proof.
  split.
  - intros Hclosed. apply maybeRunMaintenance_closed. unfold maintenance_gate.
    destruct Hclosed as [-> | [-> | ->]]; [reflexivity| |].
    + by rewrite andb_false_r.
    + rewrite andb_false_r. reflexivity.
  - intros e Hen Hro Hdir He Hno.
    rewrite maybeRunMaintenance_open.
    + unfold maintenance_session_err, maintenance_session_events.
      rewrite He. cbn [errors_As_NotOwned]. by rewrite Hno.
    + unfold maintenance_gate. rewrite Hen, Hro. cbn.
      by apply bool_decide_eq_true.
Qed.

Lemma maybeRunMaintenance_gate_and_NotOwned_witness :
  maybeRunMaintenance quiet_app read_only_repo = (Val None, []) /\
  maybeRunMaintenance quiet_app (repo_with (Some not_owned) None) =
    (Val None,
     [BeginWriteSession "maybeRunMaintenance";
      CallMaintenanceRun ModeAuto false SafetyFull;
      AbortWriteSession]).
Proof.
  split.
  - apply (proj1 (maybeRunMaintenance_gate_and_NotOwned quiet_app
                    read_only_repo)).
    right. left. reflexivity.
  - apply (proj2 (maybeRunMaintenance_gate_and_NotOwned quiet_app
                    (repo_with (Some not_owned) None)) not_owned);
      try reflexivity.
    exists scenario_rep. reflexivity.
Defined.

(** ** The guarded action *)

(** The guarded action when the metrics listener starts (or none is
    configured), the repository opens (or need not), and the action
    returns: its result, and its events in order. *)
Lemma maybeRepositoryAction_body_eq app env act mode rep oerr aerr :
  metricsListenAddr app = "" \/ initPrometheus_err env = None ->
  openRepository env (mustBeConnected mode) = (rep, oerr) ->
  bool_decide (is_Some oerr) && mustBeConnected mode = false ->
  value (act rep) = Val aerr ->
  maybeRepositoryAction_body app env act mode =
    (Val match close_error mode rep with
         | Some ce => Some (Wrapf ce "unable to close repository" [])
         | None => aerr
         end,
     StartMemoryTracking ::
     prometheus_events app ++
     [CallOpenRepository (mustBeConnected mode);
      CallAction (bool_decide (is_Some rep))] ++
     trace (act rep) ++
     maintenance_events app mode rep ++
     close_events mode rep ++
     [FinishMemoryTracking]).
Proof.
  intros Hprom Hopen Hgate Hact.
  unfold maybeRepositoryAction_body, maintenance_events, close_events,
    close_error, prometheus_events.
  rewrite Hopen, Hgate.
  destruct (act rep) as [av atr] eqn:Hact'. cbn in Hact. subst av.
  assert (Hp : negb (String.eqb (metricsListenAddr app) "") = false \/
               initPrometheus_err env = None).
  { destruct Hprom as [-> | ?]; [by left | by right]. }
  clear Hprom.
  destruct rep as [r|].
  - destruct (maybeRunMaintenance_returns app r) as [merr Hm].
    destruct (maybeRunMaintenance app r) as [mv mtr]. cbn in Hm. subst mv.
    destruct Hp as [-> | Hp];
      [| rewrite Hp; destruct (negb (String.eqb (metricsListenAddr app) ""))];
      destruct (mustBeConnected mode), (disableMaintenance mode);
      unfold bind, defer, emit, ret; cbn; rewrite ?Hact'; cbn;
      try destruct merr; try destruct (Close_err r); cbn;
      rewrite ?app_nil_r, <- ?app_assoc; reflexivity.
  - destruct Hp as [-> | Hp];
      [| rewrite Hp; destruct (negb (String.eqb (metricsListenAddr app) ""))];
      unfold bind, defer, emit, ret; cbn; rewrite ?Hact'; cbn;
      rewrite ?app_nil_r, <- ?app_assoc; reflexivity.
Qed.

Lemma trace_run_counters c rep :
  (exists tr, run_blobMap c rep = (Val (Ok ∅), []) /\
              trace (run_counters c rep) = tr /\
              tr = trace (run_from c rep ∅)) \/
  (exists tr e, trace (run_counters c rep) =
                  LogInfof "Listing blobs..." [] :: CallListBlobs "" :: tr /\
                ListBlobs_err (rep_BlobReader rep) = Some e /\
                Forall (fun ev => is_log ev = true) tr) \/
  (exists tr blobMap,
     trace (run_counters c rep) =
       (LogInfof "Listing blobs..." [] :: CallListBlobs "" :: tr)
       ++ trace (run_from c rep blobMap) /\
     Forall (fun ev => is_log ev = true) tr).
Proof.
  destruct (contentVerifyFull c) eqn:Hfull.
  - left. eexists. split; [|split; [reflexivity|]].
    + unfold run_blobMap. by rewrite Hfull.
    + unfold run_counters, run_blobMap, trace. rewrite Hfull. cbn [negb].
      by rewrite bind_ret.
  - destruct (run_blobMap_bounds c rep Hfull) as (tr & Heq & Hlog).
    unfold run_counters, trace. rewrite Heq, bind_Val.
    destruct (ListBlobs_err (rep_BlobReader rep)) as [e|].
    + right. left. exists tr, e. cbn [fst snd ret]. by rewrite app_nil_r.
    + right. right. exists tr. eexists. split; [reflexivity | exact Hlog].
Qed.

(** [run] emits nothing but log lines, the two calls into the
    repository, and counter increments. *)
Lemma run_trace_verify_events c rep :
  Forall (fun ev => is_verify_event ev = true) (trace (run c rep)).
Proof.
  assert (Hlogs : forall tr, Forall (fun ev => is_log ev = true) tr ->
                    Forall (fun ev => is_verify_event ev = true) tr).
  { intros tr H. eapply Forall_impl; [exact H|]. by intros []. }
  rewrite trace_run.
  destruct (trace_run_counters c rep)
    as [(tr & _ & -> & ->) | [(tr & e & -> & _ & Hlog) | (tr & m & -> & Hlog)]].
  - by apply run_from_Forall.
  - repeat (apply Forall_cons; split; [reflexivity|]). by apply Hlogs.
  - apply Forall_app. split; [|by apply run_from_Forall].
    repeat (apply Forall_cons; split; [reflexivity|]). by apply Hlogs.
Qed.

Lemma verify_event_not_maintenance tr :
  Forall (fun ev => is_verify_event ev = true) tr ->
  Forall (fun ev => is_maintenance_event ev = false) tr.
Proof. intros H. eapply Forall_impl; [exact H|]. by intros []. Qed.

Lemma run_act_no_maintenance c rep :
  Forall (fun ev => is_maintenance_event ev = false)
    (trace (assertDirectRepository (fun rep => run_act c rep) rep)).
Proof.
  unfold assertDirectRepository, run_act.
  destruct rep as [r|].
  - destruct (asDirect r) as [lr|]; [|constructor].
    apply verify_event_not_maintenance, run_trace_verify_events.
  - destruct (negb (contentVerifyFull c)); repeat constructor.
Qed.

Ltac solve_Forall_trace :=
  repeat first
    [ assumption
    | apply Forall_nil_2
    | apply Forall_cons; split; [reflexivity|]
    | apply Forall_app; split ].

(** With maintenance disabled by the access mode, the guarded action adds
    no maintenance event to those of the action, on any path. *)
Lemma maybeRepositoryAction_no_maintenance app env act mode :
  disableMaintenance mode = true ->
  (forall rep, Forall (fun ev => is_maintenance_event ev = false)
                 (trace (act rep))) ->
  Forall (fun ev => is_maintenance_event ev = false)
    (trace (maybeRepositoryAction app env act mode)).
Proof.
  intros Hdis Hact.
  unfold maybeRepositoryAction, withProfiling, maybeRepositoryAction_body.
  rewrite Hdis.
  destruct (openRepository env (mustBeConnected mode)) as [rep oerr].
  specialize (Hact rep). unfold trace in *.
  destruct (act rep) as [[aerr|st|] atr]; cbn [snd] in Hact;
    destruct (negb (String.eqb (metricsListenAddr app) ""));
    destruct (initPrometheus_err env);
    destruct (bool_decide (is_Some oerr) && mustBeConnected mode) eqn:Hg;
    destruct oerr, rep as [r|], (mustBeConnected mode);
    try destruct (Close_err r); try destruct aerr;
    unfold bind, defer, emit, ret, os_Exit, Wrap; cbn;
    solve_Forall_trace.
Qed.

Lemma maybeRepositoryAction_of_body app env act mode res :
  value (maybeRepositoryAction_body app env act mode) = Val res ->
  maybeRepositoryAction app env act mode =
    match res with
    | Some e =>
        (Exited 1,
         trace (maybeRepositoryAction_body app env act mode)
           ++ [LogErrorf "ERROR: %v" e])
    | None => (Val None, trace (maybeRepositoryAction_body app env act mode))
    end.
Proof.
  intros Hres. unfold maybeRepositoryAction, withProfiling.
  destruct (maybeRepositoryAction_body app env act mode) as [v tr].
  cbn in Hres. subst v. rewrite bind_Val.
  destruct res as [e|]; unfold bind, emit, os_Exit, ret, trace; cbn;
    by rewrite ?app_nil_r.
Qed.

(** C1 (as stated, refuted).  The action fails with "action failed" and
    the close that follows fails with "close failed": the guarded action
    returns, logs and exits on the wrapped close error, not on the
    action's error. *)
Lemma action_error_does_not_take_precedence :
  let r := repo_with None (Some (External "close failed")) in
  let body := maybeRepositoryAction_body quiet_app (env_with r)
                failing_action directRepositoryReadAction_mode in
  value (failing_action (Some r)) = Val (Some (External "action failed")) /\
  Close_err r = Some (External "close failed") /\
  value body <> Val (Some (External "action failed")) /\
  value body =
    Val (Some (Wrapf (External "close failed") "unable to close repository" [])) /\
  maybeRepositoryAction quiet_app (env_with r) failing_action
      directRepositoryReadAction_mode =
    (Exited 1,
     [StartMemoryTracking; CallOpenRepository true; CallAction true;
      CallClose; FinishMemoryTracking;
      LogErrorf "ERROR: %v"
        (Wrapf (External "close failed") "unable to close repository" [])]).
Proof.
  cbn zeta. repeat split; try (vm_compute; congruence).
Qed.

(** C1 (amended).  When the repository was opened and the action
    returned, a failing close of a required connection makes the wrapped
    close error the overall error, whatever the action returned; the
    action's error is the overall error when the close succeeds or is not
    attempted.  The overall error is logged and the process exits with
    status 1. *)
Theorem close_error_overrides_action_error app env act mode r oerr aerr :
  metricsListenAddr app = "" \/ initPrometheus_err env = None ->
  openRepository env (mustBeConnected mode) = (Some r, oerr) ->
  bool_decide (is_Some oerr) && mustBeConnected mode = false ->
  value (act (Some r)) = Val aerr ->
  let body := maybeRepositoryAction_body app env act mode in
  (forall ce,
     mustBeConnected mode = true -> Close_err r = Some ce ->
     value body = Val (Some (Wrapf ce "unable to close repository" [])) /\
     maybeRepositoryAction app env act mode =
       (Exited 1,
        trace body ++
        [LogErrorf "ERROR: %v" (Wrapf ce "unable to close repository" [])])) /\
  (mustBeConnected mode = false \/ Close_err r = None ->
   value body = Val aerr /\
   forall ae, aerr = Some ae ->
     maybeRepositoryAction app env act mode =
       (Exited 1, trace body ++ [LogErrorf "ERROR: %v" ae])).
Proof.
  intros Hprom Hopen Hgate Hact. cbn zeta.
  pose proof (maybeRepositoryAction_body_eq app env act mode (Some r) oerr aerr
                Hprom Hopen Hgate Hact) as Hbody.
  assert (Hval : value (maybeRepositoryAction_body app env act mode) =
                 Val match close_error mode (Some r) with
                     | Some ce => Some (Wrapf ce "unable to close repository" [])
                     | None => aerr
                     end) by (by rewrite Hbody).
  split.
  - intros ce Hmust Hce.
    assert (Hv : value (maybeRepositoryAction_body app env act mode) =
                 Val (Some (Wrapf ce "unable to close repository" []))).
    { rewrite Hval. cbn [close_error]. by rewrite Hmust, Hce. }
    split; [exact Hv|].
    by rewrite (maybeRepositoryAction_of_body _ _ _ _ _ Hv).
  - intros Hnoclose.
    assert (Hv : value (maybeRepositoryAction_body app env act mode) = Val aerr).
    { rewrite Hval. cbn [close_error].
      destruct Hnoclose as [-> | Hc]; [reflexivity|].
      rewrite Hc. by destruct (mustBeConnected mode). }
    split; [exact Hv|]. intros ae ->.
    by rewrite (maybeRepositoryAction_of_body _ _ _ _ _ Hv).
Qed.

Lemma close_error_overrides_action_error_witness :
  let r := repo_with None (Some (External "close failed")) in
  let body := maybeRepositoryAction_body quiet_app (env_with r)
                failing_action directRepositoryReadAction_mode in
  value body =
    Val (Some (Wrapf (External "close failed") "unable to close repository" [])) /\
  maybeRepositoryAction quiet_app (env_with r) failing_action
      directRepositoryReadAction_mode =
    (Exited 1,
     trace body ++
     [LogErrorf "ERROR: %v"
        (Wrapf (External "close failed") "unable to close repository" [])]).
Proof.
  cbn zeta.
  apply (proj1 (close_error_overrides_action_error quiet_app
                  (env_with (repo_with None (Some (External "close failed"))))
                  failing_action directRepositoryReadAction_mode
                  (repo_with None (Some (External "close failed")))
                  None (Some (External "action failed"))
                  (or_introl eq_refl) eq_refl eq_refl eq_refl)
           (External "close failed") eq_refl eq_refl).
Defined.

(** The error [maybeRunMaintenance] returns, if any, is wrapped as
    "error running maintenance". *)
Lemma maybeRunMaintenance_error_shape app rep me :
  value (maybeRunMaintenance app rep) = Val (Some me) ->
  exists e, me = Wrapf e "error running maintenance" [].
Proof.
  destruct (maintenance_gate app rep) eqn:Hgate.
  - rewrite (maybeRunMaintenance_open _ _ Hgate). cbn.
    destruct (errors_As_NotOwned _); [done|].
    destruct (maintenance_session_err rep) as [e|]; cbn; [|done].
    intros H. inversion H. eauto.
  - rewrite (maybeRunMaintenance_closed _ _ Hgate). done.
Qed.

(** C8.  With a repository handle and maintenance not disabled by the
    access mode, whatever the action returns, [maybeRunMaintenance] runs
    right after the action; past its gate that is a write session around
    the maintenance procedure.  Its error is logged only: the overall
    result is the wrapped close error or else what the action returned,
    and is not the maintenance error unless the action returned that very
    value. *)
Theorem maintenance_after_action_never_escalated
    app env act mode r oerr aerr :
  metricsListenAddr app = "" \/ initPrometheus_err env = None ->
  openRepository env (mustBeConnected mode) = (Some r, oerr) ->
  bool_decide (is_Some oerr) && mustBeConnected mode = false ->
  disableMaintenance mode = false ->
  value (act (Some r)) = Val aerr ->
  let body := maybeRepositoryAction_body app env act mode in
  exists pre merr,
    value (maybeRunMaintenance app r) = Val merr /\
    trace body =
      pre ++ trace (act (Some r)) ++ trace (maybeRunMaintenance app r)
      ++ match merr with
         | Some me => [LogErrorf "error running maintenance: %v" me]
         | None => []
         end
      ++ close_events mode (Some r) ++ [FinishMemoryTracking] /\
    (maintenance_gate app r = true ->
     trace (maybeRunMaintenance app r) =
       [BeginWriteSession "maybeRunMaintenance";
        CallMaintenanceRun ModeAuto false SafetyFull;
        match Maintenance_err r with
        | Some _ => AbortWriteSession
        | None => CommitWriteSession
        end]) /\
    value body =
      Val match close_error mode (Some r) with
          | Some ce => Some (Wrapf ce "unable to close repository" [])
          | None => aerr
          end /\
    (forall me, merr = Some me -> aerr <> Some me ->
                value body <> Val (Some me)).
Proof.
  intros Hprom Hopen Hgate Hdis Hact. cbn zeta.
  pose proof (maybeRepositoryAction_body_eq app env act mode (Some r) oerr aerr
                Hprom Hopen Hgate Hact) as Hbody.
  destruct (maybeRunMaintenance_returns app r) as [merr Hm].
  exists (StartMemoryTracking :: prometheus_events app ++
          [CallOpenRepository (mustBeConnected mode); CallAction true]), merr.
  split; [exact Hm|]. split; [|split; [|split]].
  - rewrite Hbody. unfold trace at 1. cbn [snd maintenance_events].
    rewrite Hdis, Hm. cbn [negb].
    cbn [Datatypes.app]. f_equal. rewrite <- !app_assoc. reflexivity.
  - intros Hopen'. by rewrite (maybeRunMaintenance_open _ _ Hopen').
  - by rewrite Hbody.
  - intros me -> Hne. rewrite Hbody. cbn [value fst].
    destruct (maybeRunMaintenance_error_shape _ _ _ Hm) as [e ->].
    destruct (close_error mode (Some r)); congruence.
Qed.

Lemma maintenance_after_action_never_escalated_witness :
  let r := repo_with (Some (External "disk full")) None in
  let body := maybeRepositoryAction_body quiet_app (env_with r)
                failing_action writer_mode in
  trace body =
    [StartMemoryTracking; CallOpenRepository true; CallAction true;
     BeginWriteSession "maybeRunMaintenance";
     CallMaintenanceRun ModeAuto false SafetyFull;
     AbortWriteSession;
     LogErrorf "error running maintenance: %v"
       (Wrapf (External "disk full") "error running maintenance" []);
     CallClose; FinishMemoryTracking] /\
  value body = Val (Some (External "action failed")).
Proof.
  cbn zeta.
  destruct (maintenance_after_action_never_escalated quiet_app
              (env_with (repo_with (Some (External "disk full")) None))
              failing_action writer_mode
              (repo_with (Some (External "disk full")) None)
              None (Some (External "action failed"))
              (or_introl eq_refl) eq_refl eq_refl eq_refl eq_refl)
    as (pre & merr & Hm & Htrace & _ & Hvalue & _).
  split; [|exact Hvalue].
  vm_compute. reflexivity.
Defined.

(** C10.  [setup] registers [run] through [directRepositoryReadAction],
    that is, under the access mode that requires a connection and disables
    maintenance; whatever the application flags, the environment and the
    repository, running the command emits no event of automatic
    maintenance: no write session and no call of the maintenance
    procedure. *)
Theorem content_verify_never_runs_maintenance c app env :
  setup c app env =
    maybeRepositoryAction app env
      (assertDirectRepository (fun rep => run_act c rep))
      {| mustBeConnected := true; disableMaintenance := true |} /\
  Forall (fun ev => is_maintenance_event ev = false) (trace (setup c app env)).
Proof.
  split; [reflexivity|].
  unfold setup, directRepositoryReadAction.
  apply maybeRepositoryAction_no_maintenance; [reflexivity|].
  apply run_act_no_maintenance.
Qed.

(** On a writable direct repository with automatic maintenance enabled,
    the guarded action under the mode of [repositoryWriterAction] runs
    maintenance, and [content verify] on the same repository does not. *)
Example content_verify_on_writable_direct_repository :
  let r := repo_with None None in
  maintenance_gate quiet_app r = true /\
  CallMaintenanceRun ModeAuto false SafetyFull ∈
    trace (maybeRepositoryAction quiet_app (env_with r)
             succeeding_action writer_mode) /\
  trace (setup full_cmd quiet_app (env_with r)) =
    [StartMemoryTracking; CallOpenRepository true; CallAction true;
     LogInfof "Verifying all contents..." [];
     CallIterateContents 16 false;
     AtomicAddInt32 CSuccess (record "C1" "B1" 0 500);
     AtomicAddInt32 CTotal (record "C1" "B1" 0 500);
     AtomicAddInt32 CSuccess (record "C2" "B1" 600 500);
     AtomicAddInt32 CTotal (record "C2" "B1" 600 500);
     AtomicAddInt32 CSuccess (record "C3" "B2" 0 10);
     AtomicAddInt32 CTotal (record "C3" "B2" 0 10);
     LogInfof finished_fmt [FInt 3; FInt 0];
     CallClose; FinishMemoryTracking].
Proof.
  cbn zeta. split; [reflexivity|]. split; [|vm_compute; reflexivity].
  vm_compute. do 4 right. left.
Qed.

(** * Further properties *)

(** ** The blob map *)

Lemma blobMap_of_lookup items (m : gmap string Metadata) id :
  blobMap_of items m !! id =
    match last (filter (fun bm => BlobID bm = id) items) with
    | Some bm => Some bm
    | None => m !! id
    end.
Proof.
  revert m. induction items as [|b items IH]; intros m; [reflexivity|].
  cbn [blobMap_of fold_left]. fold (blobMap_of items (<[BlobID b := b]> m)).
  rewrite IH. destruct (decide (BlobID b = id)) as [Hid|Hid].
  - rewrite filter_cons_True by done. rewrite last_cons.
    destruct (last _); [reflexivity|]. rewrite <- Hid. apply lookup_insert_eq.
  - rewrite filter_cons_False by done.
    destruct (last _); [reflexivity|]. by apply lookup_insert_ne.
Qed.

Lemma readBlobMap_value br :
  value (readBlobMap br) =
    Val match ListBlobs_err br with
        | Some e => Err (Wrapf e "unable to list blobs" [])
        | None => Ok (blobMap_of (ListBlobs_items br) ∅)
        end.
Proof.
  destruct (readBlobMap_eq br) as (tr & Heq & _). by rewrite Heq.
Qed.

(** X1.  When [readBlobMap] succeeds, looking a blob id up in the map it
    returns gives the last listed metadata with that id, and nothing when
    no listed metadata has it: a later listing of the same id replaces an
    earlier one, and nothing else enters the map. *)
Theorem readBlobMap_lookup_last br (blobMap : gmap string Metadata) id :
  value (readBlobMap br) = Val (Ok blobMap) ->
  blobMap !! id = last (filter (fun bm => BlobID bm = id) (ListBlobs_items br)).
Proof.
  rewrite readBlobMap_value. intros Hv.
  destruct (ListBlobs_err br); inversion Hv; subst.
  rewrite blobMap_of_lookup, lookup_empty. by destruct (last _).
Qed.

Lemma readBlobMap_lookup_last_witness :
  blobMap_of (ListBlobs_items relisted_reader) ∅ !! "B1" =
    last (filter (fun bm => BlobID bm = "B1") (ListBlobs_items relisted_reader))
  /\ last (filter (fun bm => BlobID bm = "B1") (ListBlobs_items relisted_reader))
     = Some {| BlobID := "B1"; Length := 2000 |}.
Proof.
  split; [|reflexivity].
  apply (readBlobMap_lookup_last relisted_reader).
  vm_compute. reflexivity.
Defined.

(** ** Closed forms of the run *)

Lemma ListBlobs_loop_listing_logs items m :
  ListBlobs_loop items readBlobMap_cb m =
    (Val (blobMap_of items m, None), listing_logs items m).
Proof.
  revert m. induction items as [|bm items IH]; intros m; [reflexivity|].
  cbn [ListBlobs_loop blobMap_of fold_left listing_logs].
  rewrite readBlobMap_cb_eq, bind_Val. fold (blobMap_of items).
  rewrite IH. reflexivity.
Qed.

Lemma run_blobMap_closed c rep :
  run_blobMap c rep = (Val (run_blobMap_result c rep), run_blobMap_trace c rep).
Proof.
  unfold run_blobMap, run_blobMap_result, run_blobMap_trace.
  destruct (contentVerifyFull c); [reflexivity|]. cbn [negb].
  unfold readBlobMap, ListBlobs.
  rewrite !bind_emit, ListBlobs_loop_listing_logs, bind_Val. cbn [fst snd].
  destruct (ListBlobs_err (rep_BlobReader rep)) as [e|]; cbn [fst snd ret];
    rewrite bind_Val; cbn [fst snd ret].
  - rewrite bind_Val. cbn [fst snd ret]. by rewrite !app_nil_r.
  - rewrite bind_emit. cbn [fst snd ret].
    rewrite bind_Val. cbn [fst snd ret]. by rewrite !app_nil_r.
Qed.

Lemma run_from_closed c rep blobMap :
  let r := rep_ContentReader rep in
  let recs := visited r (IterateOptions_of c) in
  let cnt := seq_counters c r blobMap recs zero_counters in
  run_from c rep blobMap =
    (Val match Iterate_failure r with
         | Some (_, e) => (Some (Wrapf e "iterate contents" []), None)
         | None =>
             (if errorCount cnt =? 0 then None
              else Some (Errorf encountered_fmt [FInt (errorCount cnt)]),
              Some cnt)
         end,
     LogInfof "Verifying all contents..." []
     :: CallIterateContents (contentVerifyParallel c)
          (contentVerifyIncludeDeleted c)
     :: seq_trace c r blobMap recs zero_counters
     ++ match Iterate_failure r with
        | Some _ => []
        | None =>
            [LogInfof finished_fmt
               [FInt (totalCount cnt); FInt (errorCount cnt)]]
        end).
Proof.
  cbn zeta. unfold run_from.
  pose proof (run_iterate_eq c rep blobMap) as Hit. cbn zeta in Hit.
  rewrite Hit, bind_Val. cbn [fst snd].
  destruct (Iterate_failure (rep_ContentReader rep)) as [[k e]|];
    cbn [fst snd ret Wrap].
  - reflexivity.
  - rewrite run_report_eq, bind_Val. cbn [fst snd ret].
    by rewrite app_nil_r.
Qed.

Lemma run_counters_closed c rep :
  run_counters c rep =
    match run_blobMap_result c rep with
    | Err e => (Val (Some e, None), run_blobMap_trace c rep)
    | Ok blobMap =>
        (value (run_from c rep blobMap),
         run_blobMap_trace c rep ++ trace (run_from c rep blobMap))
    end.
Proof.
  unfold run_counters. rewrite run_blobMap_closed, bind_Val.
  destruct (run_blobMap_result c rep); cbn [fst snd ret];
    by rewrite ?app_nil_r.
Qed.

Lemma run_blobMap_result_of_value c rep blobMap :
  value (run_blobMap c rep) = Val (Ok blobMap) ->
  run_blobMap_result c rep = Ok blobMap.
Proof. rewrite run_blobMap_closed. cbn. by intros [= ->]. Qed.

(** [run] always returns. *)
Lemma run_returns c rep : exists res, value (run c rep) = Val res.
Proof.
  assert (exists rc, value (run_counters c rep) = Val rc) as [[res cnt] Hrc].
  { rewrite run_counters_closed.
    destruct (run_blobMap_result c rep) as [m|e]; [|by eexists].
    pose proof (run_from_closed c rep m) as H. cbn zeta in H.
    rewrite H. cbn. by eexists. }
  exists res. by apply (value_run c rep res cnt).
Qed.

Lemma listing_logs_Forall (P : event -> Prop) items m :
  (forall args, P (LogInfof "  %v blobs..." args)) ->
  Forall P (listing_logs items m).
Proof.
  intros HP. revert m.
  induction items as [|bm items IH]; intros m; cbn; [constructor|].
  apply Forall_app. split; [|apply IH].
  destruct (_ =? _); repeat constructor. apply HP.
Qed.

Lemma seq_trace_Forall_progress (P : event -> Prop) c r blobMap recs cnt :
  (forall args, P (LogInfof progress_fmt args)) ->
  (forall fmt e, P (LogErrorf fmt e)) ->
  (forall k ci, P (AtomicAddInt32 k ci)) ->
  Forall P (seq_trace c r blobMap recs cnt).
Proof.
  intros HI HE HA. revert cnt.
  induction recs as [|ci recs IH]; intros cnt; cbn; [constructor|].
  apply Forall_app. split; [|apply IH].
  unfold run_cb_events.
  destruct (contentVerify c r ci blobMap), (_ =? _); repeat (constructor; auto).
Qed.

(** X2.  When the blob map was built and [IterateContents] itself fails,
    [run] returns that error wrapped as "iterate contents": the counters
    are not reported, whatever number of records failed before, and the
    line "Finished verifying ..." is not logged. *)
Theorem run_iteration_failure c rep (blobMap : gmap string Metadata) k e :
  value (run_blobMap c rep) = Val (Ok blobMap) ->
  Iterate_failure (rep_ContentReader rep) = Some (k, e) ->
  value (run_counters c rep) =
    Val (Some (Wrapf e "iterate contents" []), None) /\
  value (run c rep) = Val (Some (Wrapf e "iterate contents" [])) /\
  Forall (fun ev => forall args, ev <> LogInfof finished_fmt args)
    (trace (run c rep)).
Proof.
  intros Hbm Hfail.
  apply run_blobMap_result_of_value in Hbm.
  pose proof (run_from_closed c rep blobMap) as Hfrom. cbn zeta in Hfrom.
  rewrite Hfail in Hfrom.
  assert (Hrc : value (run_counters c rep) =
                Val (Some (Wrapf e "iterate contents" []), None)).
  { rewrite run_counters_closed, Hbm. cbn [value fst]. by rewrite Hfrom. }
  split; [exact Hrc|]. split; [by apply (value_run c rep _ None)|].
  rewrite trace_run, run_counters_closed, Hbm. cbn [trace snd].
  apply Forall_app. split.
  - unfold run_blobMap_trace, run_blobMap_result in *.
    destruct (contentVerifyFull c); [constructor|].
    destruct (ListBlobs_err (rep_BlobReader rep)); [done|].
    repeat (apply Forall_cons; split; [done|]).
    apply Forall_app. split; [by apply listing_logs_Forall|].
    repeat constructor. done.
  - rewrite Hfrom. cbn [snd]. rewrite app_nil_r.
    repeat (apply Forall_cons; split; [done|]).
    by apply seq_trace_Forall_progress.
Qed.

Lemma run_iteration_failure_witness :
  value (run_counters bounds_cmd unreadable_index_rep) =
    Val (Some (Wrapf (External "index unreadable") "iterate contents" []), None) /\
  value (run bounds_cmd unreadable_index_rep) =
    Val (Some (Wrapf (External "index unreadable") "iterate contents" [])) /\
  Forall (fun ev => forall args, ev <> LogInfof finished_fmt args)
    (trace (run bounds_cmd unreadable_index_rep)).
Proof.
  apply (run_iteration_failure bounds_cmd unreadable_index_rep
           {[ "B1" := B1 ]} 2%nat (External "index unreadable")).
  - vm_compute. reflexivity.
  - reflexivity.
Defined.

Lemma seq_counters_errorCount c r blobMap recs :
  errorCount (seq_counters c r blobMap recs zero_counters) =
    after_increments (length (failing c r blobMap recs)).
Proof.
  pose proof (pexec_sequential_schedule c r blobMap 1 recs zero_counters []
                ltac:(lia)) as Hseq.
  pose proof (counters_balance_aux c r blobMap 1 recs
                (sequential_schedule recs) _ Hseq eq_refl) as H.
  cbn zeta in H. cbn [p_counters] in H. apply H.
Qed.

Lemma seq_counters_totalCount c r blobMap recs :
  totalCount (seq_counters c r blobMap recs zero_counters) =
    after_increments (length recs).
Proof.
  pose proof (pexec_sequential_schedule c r blobMap 1 recs zero_counters []
                ltac:(lia)) as Hseq.
  pose proof (counters_balance_aux c r blobMap 1 recs
                (sequential_schedule recs) _ Hseq eq_refl) as H.
  cbn zeta in H. cbn [p_counters] in H. apply H.
Qed.

Lemma after_increments_zero n :
  Z.of_nat n < 2 ^ 32 -> (after_increments n = 0 <-> n = 0%nat).
Proof.
  intros Hn. unfold after_increments, GoInt.swrap.
  change (2 ^ (32 - 1)) with 2147483648. change (2 ^ 32) with 4294967296 in *.
  destruct (Z_lt_ge_dec (Z.of_nat n) 2147483648) as [Hlt|Hge].
  - rewrite Z.mod_small by lia. lia.
  - replace (Z.of_nat n + 2147483648)
      with (Z.of_nat n - 2147483648 + 1 * 4294967296) by lia.
    rewrite Z.mod_add by lia. rewrite Z.mod_small by lia. lia.
Qed.

Lemma failing_nil_iff c r blobMap recs :
  failing c r blobMap recs = [] <->
  Forall (fun ci => contentVerify c r ci blobMap = None) recs.
Proof.
  unfold failing. induction recs as [|ci recs IH]; [by split|].
  destruct (decide (contentVerify c r ci blobMap = None)) as [Hp|Hp].
  - rewrite filter_cons_False by tauto. rewrite IH. split.
    + by constructor.
    + by inversion 1.
  - rewrite filter_cons_True by done. split; [done|]. by inversion 1.
Qed.

(** X3.  When the blob map was built, the iteration does not fail and
    fewer than 2^32 of the selected records fail the check, [run] returns
    nil exactly when every selected record passes the per-record check
    against that map. *)
Theorem run_succeeds_iff_all_pass c rep (blobMap : gmap string Metadata) :
  value (run_blobMap c rep) = Val (Ok blobMap) ->
  Iterate_failure (rep_ContentReader rep) = None ->
  Z.of_nat (length (failing c (rep_ContentReader rep) blobMap
                      (selected_by c rep))) < 2 ^ 32 ->
  (value (run c rep) = Val None <->
   Forall (fun ci => contentVerify c (rep_ContentReader rep) ci blobMap = None)
     (selected_by c rep)).
Proof.
  intros Hbm Hfail Hsmall.
  pose proof (run_iterate_eq c rep blobMap) as Hit. cbn zeta in Hit.
  unfold visited in Hit. rewrite Hfail in Hit.
  fold (selected_by c rep) in Hit.
  rewrite (run_value c rep blobMap _ Hbm ltac:(by rewrite Hit)).
  rewrite seq_counters_errorCount, <- failing_nil_iff.
  destruct (Z.eqb_spec
              (after_increments
                 (length (failing c (rep_ContentReader rep) blobMap
                            (selected_by c rep)))) 0) as [H0|H0].
  - apply after_increments_zero in H0; [|done].
    apply length_zero_iff_nil in H0. by split.
  - split; [done|]. intros Hnil. rewrite Hnil in H0. by destruct H0.
Qed.

Lemma run_succeeds_iff_all_pass_witness :
  value (run bounds_cmd scenario_rep) = Val None <->
  Forall (fun ci => contentVerify bounds_cmd (rep_ContentReader scenario_rep)
                      ci {[ "B1" := B1 ]} = None)
    (selected_by bounds_cmd scenario_rep).
Proof.
  apply (run_succeeds_iff_all_pass bounds_cmd scenario_rep {[ "B1" := B1 ]}).
  - vm_compute. reflexivity.
  - reflexivity.
  - vm_compute. reflexivity.
Defined.







(** X5.  The counters at the end of a complete execution do not depend on
    the parallelism or on the schedule: any two complete executions over
    the same records end with the same counters, those of the execution
    that visits the records one after the other, and so with the same
    final report. *)
Theorem counters_schedule_independent
    c r blobMap recs par1 par2 sched1 sched2 st1 st2 :
  pexec c r blobMap par1 sched1 (pinit recs) = Some st1 -> pdone st1 = true ->
  pexec c r blobMap par2 sched2 (pinit recs) = Some st2 -> pdone st2 = true ->
  p_counters st1 = p_counters st2 /\
  p_counters st1 = seq_counters c r blobMap recs zero_counters /\
  value (run_report (p_counters st1)) = value (run_report (p_counters st2)).
Proof.
  intros Hex1 Hd1 Hex2 Hd2.
  assert (Hdet : forall par sched st,
             pexec c r blobMap par sched (pinit recs) = Some st ->
             pdone st = true ->
             p_counters st =
               {| totalCount := after_increments (length recs);
                  successCount :=
                    after_increments (length (passing c r blobMap recs));
                  errorCount :=
                    after_increments (length (failing c r blobMap recs)) |}).
  { intros par sched st Hex Hd.
    pose proof (counters_balance_aux c r blobMap par recs sched st Hex Hd) as H.
    cbn zeta in H. destruct H as (_ & _ & _ & _ & _ & HT & HS & HE & _).
    destruct (p_counters st) as [t s e]. cbn in *. by subst. }
  pose proof (pexec_sequential_schedule c r blobMap 1 recs zero_counters []
                ltac:(lia)) as Hseq.
  pose proof (Hdet _ _ _ Hseq eq_refl) as H0. cbn [p_counters] in H0.
  rewrite (Hdet _ _ _ Hex1 Hd1), (Hdet _ _ _ Hex2 Hd2), H0. done.
Qed.

Lemma counters_schedule_independent_witness :
  exists st1 st2,
    pexec bounds_cmd (rep_ContentReader scenario_rep) scenario_blobMap 2
      interleaved_schedule (pinit scenario_index) = Some st1 /\
    pexec bounds_cmd (rep_ContentReader scenario_rep) scenario_blobMap 1
      (sequential_schedule scenario_index) (pinit scenario_index) = Some st2 /\
    p_trace st1 <> p_trace st2 /\
    p_counters st1 = p_counters st2.
Proof.
  eexists. eexists.
  split; [vm_compute; reflexivity|]. split; [vm_compute; reflexivity|].
  split; [vm_compute; congruence|].
  match goal with
  | |- p_counters ?s1 = p_counters ?s2 =>
      apply (counters_schedule_independent bounds_cmd
               (rep_ContentReader scenario_rep) scenario_blobMap
               scenario_index 2 1 interleaved_schedule
               (sequential_schedule scenario_index) s1 s2);
        vm_compute; reflexivity
  end.
Defined.

(** ** More on the guarded action *)

(** X6.  When the connection is required and the repository cannot be
    opened, the guarded action does not invoke the action: whatever the
    action is, the trace is the same, without any event of the action, of
    maintenance or of a close; the open error, wrapped as "open
    repository", is logged and the process exits with status 1, after
    memory tracking was finished. *)
Theorem open_failure_aborts_before_action app env act mode rep e :
  metricsListenAddr app = "" \/ initPrometheus_err env = None ->
  mustBeConnected mode = true ->
  openRepository env true = (rep, Some e) ->
  maybeRepositoryAction app env act mode =
    (Exited 1,
     StartMemoryTracking :: prometheus_events app ++
     [CallOpenRepository true; FinishMemoryTracking;
      LogErrorf "ERROR: %v" (Wrapf e "open repository" [])]).
Proof.
  intros Hprom Hmust Hopen.
  unfold maybeRepositoryAction, withProfiling, maybeRepositoryAction_body,
    prometheus_events.
  rewrite Hmust, Hopen.
  assert (Hp : negb (String.eqb (metricsListenAddr app) "") = false \/
               initPrometheus_err env = None).
  { destruct Hprom as [-> | ?]; [by left | by right]. }
  destruct Hp as [-> | Hp];
    [| rewrite Hp; destruct (negb (String.eqb (metricsListenAddr app) ""))];
    unfold bind, defer, emit, ret, os_Exit; cbn; reflexivity.
Qed.

Lemma open_failure_aborts_before_action_witness :
  maybeRepositoryAction quiet_app unconnected_env panicking_action
      directRepositoryReadAction_mode =
    (Exited 1,
     [StartMemoryTracking; CallOpenRepository true; FinishMemoryTracking;
      LogErrorf "ERROR: %v"
        (Wrapf (External "repository is not connected") "open repository" [])]).
Proof.
  apply (open_failure_aborts_before_action quiet_app unconnected_env
           panicking_action directRepositoryReadAction_mode None
           (External "repository is not connected")
           (or_introl eq_refl) eq_refl eq_refl).
Defined.

(** X7.  When a metrics address is configured and the metrics registry
    cannot be initialised, the guarded action stops there: the repository
    is not opened and the action is not invoked; the error, wrapped as
    "unable to initialize prometheus.", is logged and the process exits
    with status 1. *)
Theorem prometheus_failure_aborts app env act mode e :
  metricsListenAddr app <> "" ->
  initPrometheus_err env = Some e ->
  maybeRepositoryAction app env act mode =
    (Exited 1,
     [StartMemoryTracking; InitPrometheus; FinishMemoryTracking;
      LogErrorf "ERROR: %v" (Wrapf e "unable to initialize prometheus." [])]).
Proof.
  intros Haddr Hinit.
  unfold maybeRepositoryAction, withProfiling, maybeRepositoryAction_body.
  apply String.eqb_neq in Haddr. rewrite Haddr, Hinit.
  unfold bind, defer, emit, ret, os_Exit; cbn; reflexivity.
Qed.

Lemma prometheus_failure_aborts_witness :
  maybeRepositoryAction metrics_app no_metrics_env panicking_action
      writer_mode =
    (Exited 1,
     [StartMemoryTracking; InitPrometheus; FinishMemoryTracking;
      LogErrorf "ERROR: %v"
        (Wrapf (External "registry") "unable to initialize prometheus." [])]).
Proof.
  apply (prometheus_failure_aborts metrics_app no_metrics_env panicking_action
           writer_mode (External "registry")).
  - vm_compute. congruence.
  - reflexivity.
Defined.

(** X8.  The function [maybeRepositoryAction] builds never returns a
    non-nil error to its caller: it returns nil, and exactly when the
    guarded body returned nil, or the process ends. *)
Theorem maybeRepositoryAction_returns_only_nil app env act mode :
  (forall e, value (maybeRepositoryAction app env act mode) <> Val (Some e)) /\
  (value (maybeRepositoryAction app env act mode) = Val None <->
   value (maybeRepositoryAction_body app env act mode) = Val None).
Proof.
  unfold maybeRepositoryAction, withProfiling.
  destruct (maybeRepositoryAction_body app env act mode) as [[[e'|]|st|] tr];
    unfold bind, emit, ret, os_Exit, value; cbn; split; try split; congruence.
Qed.

Lemma defer_trace {A} d (body : M A) :
  (forall st, value body <> Exited st) ->
  trace (defer d body) = trace body ++ d.
Proof.
  intros H. unfold defer, trace, value in *.
  destruct body as [[a|st|] tr]; cbn; [reflexivity| |reflexivity].
  by destruct (H st).
Qed.

(** X9.  Memory tracking brackets the guarded action on every path on
    which the action does not itself end the process, also when the action
    panics: the trace of the guarded body starts with the start of memory
    tracking and ends with its finish. *)
Theorem memory_tracking_brackets_action app env act mode :
  (forall rep st, value (act rep) <> Exited st) ->
  exists mid,
    trace (maybeRepositoryAction_body app env act mode) =
      StartMemoryTracking :: mid ++ [FinishMemoryTracking].
Proof.
  intros Hact. unfold maybeRepositoryAction_body.
  rewrite bind_emit. unfold trace at 1. cbn [snd].
  match goal with
  | |- context [snd (defer ?d ?b)] =>
      change (snd (defer d b)) with (trace (defer d b));
      rewrite (defer_trace d b); [by eexists|]
  end.
  intros st. unfold value.
  destruct (openRepository env (mustBeConnected mode)) as [rep oerr].
  specialize (Hact rep). unfold value in Hact.
  destruct (act rep) as [[aerr|st'|] atr];
    [| by destruct (Hact st') |];
    destruct (negb (String.eqb (metricsListenAddr app) ""));
    destruct (initPrometheus_err env);
    destruct (bool_decide (is_Some oerr) && mustBeConnected mode);
    destruct rep as [r|];
    try (destruct (maybeRunMaintenance_returns app r) as [merr Hm];
         unfold value in Hm;
         destruct (maybeRunMaintenance app r) as [mv mtr];
         cbn in Hm; subst mv; destruct merr);
    destruct (mustBeConnected mode), (disableMaintenance mode);
    try destruct (Close_err r);
    unfold bind, emit, ret, Wrap; cbn; congruence.
Qed.

Lemma memory_tracking_brackets_action_witness :
  exists mid,
    trace (maybeRepositoryAction_body quiet_app
             (env_with (repo_with None None)) panicking_action writer_mode) =
      StartMemoryTracking :: mid ++ [FinishMemoryTracking].
Proof.
  apply (memory_tracking_brackets_action quiet_app
           (env_with (repo_with None None)) panicking_action writer_mode).
  intros rep st. vm_compute. congruence.
Defined.

(** X10.  When the connection is not required, a failure to open the
    repository is not an error: the action is invoked with whatever handle
    came back, nil included, the repository is not closed afterwards, and
    the result is what the action returned. *)
Theorem optional_connection_never_closes app env act mode rep oerr aerr :
  metricsListenAddr app = "" \/ initPrometheus_err env = None ->
  mustBeConnected mode = false ->
  openRepository env false = (rep, oerr) ->
  value (act rep) = Val aerr ->
  value (maybeRepositoryAction_body app env act mode) = Val aerr /\
  trace (maybeRepositoryAction_body app env act mode) =
    StartMemoryTracking :: prometheus_events app ++
    [CallOpenRepository false; CallAction (bool_decide (is_Some rep))] ++
    trace (act rep) ++ maintenance_events app mode rep ++
    [FinishMemoryTracking].
Proof.
  intros Hprom Hmust Hopen Hact.
  pose proof (maybeRepositoryAction_body_eq app env act mode rep oerr aerr
                Hprom) as Hbody.
  rewrite Hmust in Hbody. specialize (Hbody Hopen).
  rewrite andb_false_r in Hbody. specialize (Hbody eq_refl Hact).
  rewrite Hbody. unfold close_error, close_events. rewrite Hmust.
  by destruct rep.
Qed.

Lemma optional_connection_never_closes_witness :
  value (maybeRepositoryAction_body quiet_app unconnected_env
           succeeding_action optional_mode) = Val None /\
  trace (maybeRepositoryAction_body quiet_app unconnected_env
           succeeding_action optional_mode) =
    [StartMemoryTracking; CallOpenRepository false; CallAction false;
     FinishMemoryTracking].
Proof.
  apply (optional_connection_never_closes quiet_app unconnected_env
           succeeding_action optional_mode None
           (Some (External "repository is not connected")) None
           (or_introl eq_refl) eq_refl eq_refl eq_refl).
Defined.

(** ** The registered commands *)

(** X11.  On a repository that is not a direct one, [content verify]
    neither lists blobs nor iterates over contents: the action fails with
    "operation supported only on direct repository", the repository is
    closed, and the process exits with status 1 on that error, or on the
    close error when the close fails too. *)
Theorem content_verify_rejects_non_direct_repository c app env r :
  metricsListenAddr app = "" \/ initPrometheus_err env = None ->
  openRepository env true = (Some r, None) ->
  asDirect r = None ->
  setup c app env =
    (Exited 1,
     StartMemoryTracking :: prometheus_events app ++
     [CallOpenRepository true; CallAction true; CallClose;
      FinishMemoryTracking;
      LogErrorf "ERROR: %v"
        match Close_err r with
        | Some ce => Wrapf ce "unable to close repository" []
        | None => not_direct_error
        end]).
Proof.
  intros Hprom Hopen Hdir. unfold setup, directRepositoryReadAction.
  set (act := assertDirectRepository (fun rep => run_act c rep)).
  assert (Hact : act (Some r) = (Val (Some not_direct_error), [])).
  { unfold act, assertDirectRepository. by rewrite Hdir. }
  pose proof (maybeRepositoryAction_body_eq app env act
                directRepositoryReadAction_mode (Some r) None
                (Some not_direct_error) Hprom Hopen eq_refl
                ltac:(by rewrite Hact)) as Hbody.
  rewrite Hact in Hbody. cbn [trace snd close_error close_events
    maintenance_events directRepositoryReadAction_mode mustBeConnected
    disableMaintenance negb] in Hbody.
  erewrite maybeRepositoryAction_of_body; [|by rewrite Hbody].
  rewrite Hbody. cbn [trace snd].
  destruct (Close_err r); cbn [Datatypes.app];
    rewrite <- ?app_assoc; reflexivity.
Qed.

Lemma content_verify_rejects_non_direct_repository_witness :
  setup bounds_cmd quiet_app (env_with remote_repo) =
    (Exited 1,
     [StartMemoryTracking; CallOpenRepository true; CallAction true;
      CallClose; FinishMemoryTracking;
      LogErrorf "ERROR: %v" not_direct_error]).
Proof.
  apply (content_verify_rejects_non_direct_repository bounds_cmd quiet_app
           (env_with remote_repo) remote_repo
           (or_introl eq_refl) eq_refl eq_refl).
Defined.

(** X12.  On a direct repository that opens and closes without error,
    [content verify] runs [run], then closes the repository, and ends as
    [run] returned: it returns nil when [run] returned nil, and otherwise
    logs the error of [run] and exits with status 1. *)
Theorem content_verify_exit_status c app env r lr res :
  metricsListenAddr app = "" \/ initPrometheus_err env = None ->
  openRepository env true = (Some r, None) ->
  asDirect r = Some lr ->
  Close_err r = None ->
  value (run c lr) = Val res ->
  let tr :=
    StartMemoryTracking :: prometheus_events app ++
    [CallOpenRepository true; CallAction true] ++ trace (run c lr) ++
    [CallClose; FinishMemoryTracking] in
  setup c app env =
    match res with
    | None => (Val None, tr)
    | Some e => (Exited 1, tr ++ [LogErrorf "ERROR: %v" e])
    end.
Proof.
  intros Hprom Hopen Hdir Hclose Hrun. cbn zeta.
  unfold setup, directRepositoryReadAction.
  set (act := assertDirectRepository (fun rep => run_act c rep)).
  assert (Hact : act (Some r) = run c lr).
  { unfold act, assertDirectRepository. by rewrite Hdir. }
  pose proof (maybeRepositoryAction_body_eq app env act
                directRepositoryReadAction_mode (Some r) None res
                Hprom Hopen eq_refl ltac:(by rewrite Hact)) as Hbody.
  rewrite Hact in Hbody. cbn [close_error close_events
    maintenance_events directRepositoryReadAction_mode mustBeConnected
    disableMaintenance negb] in Hbody.
  rewrite Hclose in Hbody.
  erewrite maybeRepositoryAction_of_body; [|by rewrite Hbody].
  rewrite Hbody. cbn [trace snd Datatypes.app].
  destruct res; reflexivity.
Qed.

Lemma content_verify_exit_status_witness :
  setup bounds_cmd quiet_app (env_with (repo_with None None)) =
    (Exited 1,
     (StartMemoryTracking :: prometheus_events quiet_app ++
      [CallOpenRepository true; CallAction true] ++
      trace (run bounds_cmd scenario_rep) ++
      [CallClose; FinishMemoryTracking]) ++
     [LogErrorf "ERROR: %v" (Errorf encountered_fmt [FInt 2])]).
Proof.
  apply (content_verify_exit_status bounds_cmd quiet_app
           (env_with (repo_with None None)) (repo_with None None)
           scenario_rep (Some (Errorf encountered_fmt [FInt 2]))
           (or_introl eq_refl) eq_refl eq_refl eq_refl).
  vm_compute. reflexivity.
Defined.

(** X13.  Under [repositoryWriterAction] the action runs in a write
    session with the purpose "repositoryWriterAction", which is committed
    when the action returns nil and aborted when it returns an error;
    automatic maintenance, unlike under the other wrappers, is attempted,
    and only after that session has ended; then the repository is closed.
    The result is the close error or else what the session returned. *)
Theorem repositoryWriterAction_session_then_maintenance app env act r aerr :
  metricsListenAddr app = "" \/ initPrometheus_err env = None ->
  openRepository env true = (Some r, None) ->
  value (act r) = Val aerr ->
  let res :=
    match Close_err r with
    | Some ce => Some (Wrapf ce "unable to close repository" [])
    | None => match aerr with
              | Some e => Some e
              | None => Commit_err r
              end
    end in
  let tr :=
    StartMemoryTracking :: prometheus_events app ++
    [CallOpenRepository true; CallAction true;
     BeginWriteSession "repositoryWriterAction"] ++
    trace (act r) ++
    [match aerr with
     | Some _ => AbortWriteSession
     | None => CommitWriteSession
     end] ++
    maintenance_events app writer_mode (Some r) ++
    [CallClose; FinishMemoryTracking] in
  repositoryWriterAction app env act =
    match res with
    | None => (Val None, tr)
    | Some e => (Exited 1, tr ++ [LogErrorf "ERROR: %v" e])
    end.
Proof.
  intros Hprom Hopen Hact. cbn zeta. unfold repositoryWriterAction.
  fold writer_mode.
  set (wact := fun rep : option Repository =>
                 match rep with
                 | Some r0 => WriteSession r0 "repositoryWriterAction" (act r0)
                 | None => panic
                 end).
  assert (Hw : wact (Some r) =
               (Val match aerr with
                    | Some e => Some e
                    | None => Commit_err r
                    end,
                BeginWriteSession "repositoryWriterAction" :: trace (act r) ++
                [match aerr with
                 | Some _ => AbortWriteSession
                 | None => CommitWriteSession
                 end])).
  { unfold wact, WriteSession. unfold value in Hact.
    destruct (act r) as [v atr]. cbn in Hact. subst v.
    rewrite bind_emit, bind_Val.
    destruct aerr; rewrite bind_emit; cbn [fst snd ret trace];
      by rewrite ?app_nil_r. }
  pose proof (maybeRepositoryAction_body_eq app env wact writer_mode (Some r)
                None _ Hprom Hopen eq_refl ltac:(by rewrite Hw)) as Hbody.
  rewrite Hw in Hbody.
  cbn [trace snd close_error close_events writer_mode mustBeConnected] in Hbody.
  erewrite maybeRepositoryAction_of_body; [|by rewrite Hbody].
  rewrite Hbody. cbn [trace snd].
  destruct (Close_err r), aerr; try destruct (Commit_err r);
    cbn [Datatypes.app]; rewrite <- ?app_assoc; reflexivity.
Qed.

Lemma repositoryWriterAction_session_then_maintenance_witness :
  repositoryWriterAction quiet_app (env_with (repo_with None None))
      failing_writer =
    (Exited 1,
     [StartMemoryTracking; CallOpenRepository true; CallAction true;
      BeginWriteSession "repositoryWriterAction"; AbortWriteSession;
      BeginWriteSession "maybeRunMaintenance";
      CallMaintenanceRun ModeAuto false SafetyFull; CommitWriteSession;
      CallClose; FinishMemoryTracking;
      LogErrorf "ERROR: %v" (External "action failed")]).
Proof.
  rewrite (repositoryWriterAction_session_then_maintenance quiet_app
             (env_with (repo_with None None)) failing_writer
             (repo_with None None) (Some (External "action failed"))
             (or_introl eq_refl) eq_refl eq_refl).
  vm_compute. reflexivity.
Defined.

(** ** Password entry *)

Lemma askPass_loop_empty n prompt rest o :
  Password.askPass_loop (S n) prompt
    {| Password.input := Password.ReadOk "" :: rest; Password.output := o |} =
  Password.askPass_loop n prompt
    {| Password.input := rest; Password.output := o ++ attempt prompt |}.
Proof.
  cbn [Password.askPass_loop]. unfold Password.io_bind, Password.print,
    Password.ReadPassword. cbn. by rewrite <- app_assoc.
Qed.

Lemma askPass_loop_entry n prompt p rest o :
  p <> "" ->
  Password.askPass_loop (S n) prompt
    {| Password.input := Password.ReadOk p :: rest; Password.output := o |} =
  (Ok p, {| Password.input := rest; Password.output := o ++ attempt prompt |}).
Proof.
  intros Hp. cbn [Password.askPass_loop]. unfold Password.io_bind,
    Password.print, Password.ReadPassword, Password.io_ret. cbn.
  destruct p as [|a p]; [done|]. cbn. by rewrite <- app_assoc.
Qed.

Lemma askPass_loop_skips n k prompt p rest o :
  (k < n)%nat -> p <> "" ->
  Password.askPass_loop n prompt
    {| Password.input := replicate k (Password.ReadOk "") ++
                         Password.ReadOk p :: rest;
       Password.output := o |} =
  (Ok p, {| Password.input := rest;
            Password.output := o ++ concat (replicate (S k) (attempt prompt)) |}).
Proof.
  intros Hk Hp. revert n o Hk. induction k as [|k IH]; intros n o Hk.
  - destruct n as [|n]; [lia|]. cbn [replicate Datatypes.app concat].
    rewrite askPass_loop_entry by done. by rewrite app_nil_r.
  - destruct n as [|n]; [lia|].
    cbn [replicate Datatypes.app]. rewrite askPass_loop_empty.
    rewrite IH by lia. f_equal. f_equal.
    rewrite <- app_assoc. reflexivity.
Qed.

(** X14.  [askPass] skips empty entries: after fewer than five empty
    entries, the first non-empty entry is returned as the password; the
    reads after it are left untouched and the prompt was printed once for
    every entry read. *)
Theorem askPass_returns_first_nonempty_entry k prompt p rest o :
  (k < 5)%nat -> p <> "" ->
  Password.askPass prompt
    {| Password.input := replicate k (Password.ReadOk "") ++
                         Password.ReadOk p :: rest;
       Password.output := o |} =
  (Ok p, {| Password.input := rest;
            Password.output := o ++ concat (replicate (S k) (attempt prompt)) |}).
Proof. intros Hk Hp. by apply askPass_loop_skips. Qed.

Lemma askPass_returns_first_nonempty_entry_witness :
  Password.askPass "Password: "
    (typed [Password.ReadOk ""; Password.ReadOk ""; Password.ReadOk "s3cret";
            Password.ReadOk "next"]) =
  (Ok "s3cret",
   {| Password.input := [Password.ReadOk "next"];
      Password.output := concat (replicate 3 (attempt "Password: ")) |}).
Proof.
  apply (askPass_returns_first_nonempty_entry 2 "Password: " "s3cret"
           [Password.ReadOk "next"] []).
  - lia.
  - congruence.
Defined.

Lemma askPass_loop_gives_up n prompt rest o :
  Password.askPass_loop n prompt
    {| Password.input := replicate n (Password.ReadOk "") ++ rest;
       Password.output := o |} =
  (Err (Errorf "can't get password" []),
   {| Password.input := rest;
      Password.output := o ++ concat (replicate n (attempt prompt)) |}).
Proof.
  revert o. induction n as [|n IH]; intros o.
  - cbn. by rewrite app_nil_r.
  - cbn [replicate Datatypes.app]. rewrite askPass_loop_empty, IH.
    f_equal. f_equal. rewrite <- app_assoc. reflexivity.
Qed.

Lemma askPass_loop_read_error n k prompt rest o :
  (k < n)%nat ->
  Password.askPass_loop n prompt
    {| Password.input := replicate k (Password.ReadOk "") ++ rest;
       Password.output := o |} =
  match rest with
  | Password.ReadOk p :: rest' =>
      Password.askPass_loop (n - k) prompt
        {| Password.input := rest;
           Password.output := o ++ concat (replicate k (attempt prompt)) |}
  | Password.ReadErr e :: rest' =>
      (Err (Wrapf e "password prompt error" []),
       {| Password.input := rest';
          Password.output := o ++ concat (replicate k (attempt prompt))
                               ++ [Password.Print prompt] |})
  | [] =>
      (Err (Wrapf Password.EOF "password prompt error" []),
       {| Password.input := [];
          Password.output := o ++ concat (replicate k (attempt prompt))
                               ++ [Password.Print prompt] |})
  end.
Proof.
  revert n o. induction k as [|k IH]; intros n o Hk.
  - destruct n as [|n]; [lia|]. cbn [replicate Datatypes.app concat].
    destruct rest as [|[p|e] rest']; cbn; rewrite ?app_nil_r; reflexivity.
  - destruct n as [|n]; [lia|].
    cbn [replicate Datatypes.app]. rewrite askPass_loop_empty.
    rewrite IH by lia.
    destruct rest as [|[p|e] rest']; rewrite <- ?app_assoc; reflexivity.
Qed.

(** X15.  [askPass] fails in two ways only.  After five empty entries it
    gives up with "can't get password", having read exactly those five.
    When a read fails, or the input has ended, after fewer than five empty
    entries, it returns the read error wrapped as "password prompt error";
    the prompt of the failed read was printed. *)
Theorem askPass_failures prompt rest o :
  Password.askPass prompt
    {| Password.input := replicate 5 (Password.ReadOk "") ++ rest;
       Password.output := o |} =
  (Err (Errorf "can't get password" []),
   {| Password.input := rest;
      Password.output := o ++ concat (replicate 5 (attempt prompt)) |}) /\
  (forall k e, (k < 5)%nat ->
     Password.askPass prompt
       {| Password.input := replicate k (Password.ReadOk "") ++
                            Password.ReadErr e :: rest;
          Password.output := o |} =
     (Err (Wrapf e "password prompt error" []),
      {| Password.input := rest;
         Password.output := o ++ concat (replicate k (attempt prompt))
                              ++ [Password.Print prompt] |})) /\
  (forall k, (k < 5)%nat ->
     Password.askPass prompt
       {| Password.input := replicate k (Password.ReadOk "");
          Password.output := o |} =
     (Err (Wrapf Password.EOF "password prompt error" []),
      {| Password.input := [];
         Password.output := o ++ concat (replicate k (attempt prompt))
                              ++ [Password.Print prompt] |})).
Proof.
  split; [apply askPass_loop_gives_up|]. split.
  - intros k e Hk. unfold Password.askPass.
    by rewrite (askPass_loop_read_error 5 k prompt
                  (Password.ReadErr e :: rest) o Hk).
  - intros k Hk. unfold Password.askPass.
    pose proof (askPass_loop_read_error 5 k prompt [] o Hk) as H.
    by rewrite app_nil_r in H.
Qed.

Lemma askPass_failures_witness :
  Password.askPass "Password: "
    (typed [Password.ReadOk ""; Password.ReadErr (External "terminal closed");
            Password.ReadOk "late"]) =
  (Err (Wrapf (External "terminal closed") "password prompt error" []),
   {| Password.input := [Password.ReadOk "late"];
      Password.output := attempt "Password: " ++ [Password.Print "Password: "] |}).
Proof.
  apply (proj1 (proj2 (askPass_failures "Password: "
                         [Password.ReadOk "late"] []))
           1%nat (External "terminal closed")).
  lia.
Defined.

Lemma askPass_loop_Ok n prompt t p t' :
  Password.askPass_loop n prompt t = (Ok p, t') ->
  p <> "" /\
  exists k, (k < n)%nat /\
    Password.input t =
      replicate k (Password.ReadOk "") ++ Password.ReadOk p :: Password.input t' /\
    Password.output t' =
      Password.output t ++ concat (replicate (S k) (attempt prompt)).
Proof.
  revert t. induction n as [|n IH]; intros [inp o] H; [by inversion H|].
  destruct inp as [|[s|e] rest].
  - by inversion H.
  - destruct (decide (s = "")) as [->|Hs].
    + rewrite askPass_loop_empty in H.
      destruct (IH _ H) as (Hp & k & Hk & Hin & Hout). cbn in Hin, Hout.
      split; [done|]. exists (S k). split; [lia|]. cbn [Password.input
        Password.output replicate Datatypes.app]. split; [by rewrite Hin|].
      rewrite Hout, <- app_assoc. reflexivity.
    + rewrite askPass_loop_entry in H by done. inversion H; subst.
      split; [done|]. exists 0%nat. split; [lia|]. cbn.
      by rewrite ?app_nil_r.
  - by inversion H.
Qed.

(** X16.  When [askPass] returns a password, the password is not empty,
    it is the first non-empty entry, and fewer than five empty entries
    were read before it; nothing after it was read. *)
Theorem askPass_password_is_first_nonempty prompt t p t' :
  Password.askPass prompt t = (Ok p, t') ->
  p <> "" /\
  exists k, (k < 5)%nat /\
    Password.input t =
      replicate k (Password.ReadOk "") ++ Password.ReadOk p :: Password.input t'.
Proof.
  intros H. destruct (askPass_loop_Ok 5 prompt t p t' H)
    as (Hp & k & Hk & Hin & _). eauto.
Qed.

Lemma askPass_password_is_first_nonempty_witness :
  "s3cret" <> "" /\
  exists k, (k < 5)%nat /\
    [Password.ReadOk ""; Password.ReadOk "s3cret"; Password.ReadOk "next"] =
      replicate k (Password.ReadOk "") ++
      Password.ReadOk "s3cret" :: [Password.ReadOk "next"].
Proof.
  apply (askPass_password_is_first_nonempty "Password: "
           (typed [Password.ReadOk ""; Password.ReadOk "s3cret";
                   Password.ReadOk "next"])
           "s3cret"
           {| Password.input := [Password.ReadOk "next"];
              Password.output := concat (replicate 2 (attempt "Password: ")) |}).
  vm_compute. reflexivity.
Defined.

Lemma askPass_consumes prompt t p t' :
  Password.askPass prompt t = (Ok p, t') ->
  (length (Password.input t') < length (Password.input t))%nat.
Proof.
  intros H. destruct (askPass_loop_Ok 5 prompt t p t' H)
    as (_ & k & _ & Hin & _).
  rewrite Hin, length_app. cbn. lia.
Qed.

Lemma askForNew_loop_enough_fuel fuel t :
  (length (Password.input t) < fuel)%nat ->
  exists r t', Password.askForNew_loop fuel t = (Some r, t').
Proof.
  revert t. induction fuel as [|fuel IH]; intros t Hlen; [lia|].
  cbn [Password.askForNew_loop]. unfold Password.io_bind.
  destruct (Password.askPass Password.new_prompt t) as [[p1|e1] t1] eqn:H1;
    [|by eexists _, _].
  apply askPass_consumes in H1.
  destruct (Password.askPass Password.verify_prompt t1) as [[p2|e2] t2] eqn:H2;
    [|by eexists _, _].
  apply askPass_consumes in H2.
  destruct (negb (String.eqb p1 p2)); [|by eexists _, _].
  unfold Password.print. apply IH. cbn. lia.
Qed.

(** X17.  [askForNewRepositoryPassword] comes to an end on every terminal
    input: it returns a password or an error, at the latest when the input
    has ended. *)
Theorem askForNewRepositoryPassword_terminates t :
  exists r t', Password.askForNewRepositoryPassword t = (Some r, t').
Proof.
  unfold Password.askForNewRepositoryPassword.
  apply askForNew_loop_enough_fuel. lia.
Qed.

Lemma entries_app l1 l2 :
  Password.entries (l1 ++ l2) = Password.entries l1 ++ Password.entries l2.
Proof.
  induction l1 as [|[s|e] l1 IH]; cbn; [reflexivity| |exact IH].
  destruct (Nat.eqb (String.length s) 0); cbn; by rewrite IH.
Qed.

Lemma entries_skipped k p :
  p <> "" ->
  Password.entries (replicate k (Password.ReadOk "") ++ [Password.ReadOk p]) = [p].
Proof.
  intros Hp. induction k as [|k IH]; cbn; [|exact IH].
  by destruct p.
Qed.

Lemma askPass_entry prompt t p t' :
  Password.askPass prompt t = (Ok p, t') ->
  p <> "" /\
  exists consumed,
    Password.input t = consumed ++ Password.input t' /\
    Password.entries consumed = [p].
Proof.
  intros H. destruct (askPass_loop_Ok 5 prompt t p t' H)
    as (Hp & k & _ & Hin & _).
  split; [done|].
  exists (replicate k (Password.ReadOk "") ++ [Password.ReadOk p]).
  split; [by rewrite Hin, <- app_assoc | by apply entries_skipped].
Qed.

Lemma askForNew_loop_confirmed fuel t p t' :
  Password.askForNew_loop fuel t = (Some (Ok p), t') ->
  p <> "" /\
  exists consumed earlier,
    Password.input t = consumed ++ Password.input t' /\
    Password.entries consumed = earlier ++ [p; p].
Proof.
  revert t. induction fuel as [|fuel IH]; intros t H; [by inversion H|].
  cbn [Password.askForNew_loop] in H. unfold Password.io_bind in H.
  destruct (Password.askPass Password.new_prompt t) as [[p1|e1] t1] eqn:H1;
    [|by inversion H].
  destruct (askPass_entry _ _ _ _ H1) as (Hp1 & c1 & Hin1 & Hen1).
  destruct (Password.askPass Password.verify_prompt t1) as [[p2|e2] t2] eqn:H2;
    [|by inversion H].
  destruct (askPass_entry _ _ _ _ H2) as (Hp2 & c2 & Hin2 & Hen2).
  destruct (String.eqb_spec p1 p2) as [->|Hne]; cbn [negb] in H.
  - inversion H; subst. split; [done|].
    exists (c1 ++ c2), []. split.
    + by rewrite Hin1, Hin2, <- app_assoc.
    + by rewrite entries_app, Hen1, Hen2.
  - unfold Password.print in H.
    destruct (IH _ H) as (Hp & c3 & earlier & Hin3 & Hen3). cbn in Hin3.
    split; [done|].
    exists (c1 ++ c2 ++ c3), ([p1; p2] ++ earlier). split.
    + by rewrite Hin1, Hin2, Hin3, <- !app_assoc.
    + by rewrite !entries_app, Hen1, Hen2, Hen3.
Qed.

(** X18.  A password that [askForNewRepositoryPassword] returns is not
    empty and was typed twice in a row: the non-empty entries read end with
    that password entered two times, and nothing after them was read. *)
Theorem askForNewRepositoryPassword_confirmed t p t' :
  Password.askForNewRepositoryPassword t = (Some (Ok p), t') ->
  p <> "" /\
  exists consumed earlier,
    Password.input t = consumed ++ Password.input t' /\
    Password.entries consumed = earlier ++ [p; p].
Proof. apply askForNew_loop_confirmed. Qed.

Lemma askForNewRepositoryPassword_confirmed_witness :
  "s3cret" <> "" /\
  exists consumed earlier,
    new_password_session = consumed ++ [Password.ReadOk "unread"] /\
    Password.entries consumed = earlier ++ ["s3cret"; "s3cret"].
Proof.
  apply (askForNewRepositoryPassword_confirmed (typed new_password_session)
           "s3cret"
           {| Password.input := [Password.ReadOk "unread"];
              Password.output :=
                attempt Password.new_prompt ++ attempt Password.verify_prompt
                ++ [Password.Println Password.mismatch_msg]
                ++ attempt Password.new_prompt ++ attempt Password.new_prompt
                ++ attempt Password.verify_prompt |}).
  vm_compute. reflexivity.
Defined.




(** ** The safety flag *)

(** X20.  The table [safetyByName] covers the values the safety flag
    admits and no others: the PreAction finds a safety level exactly for
    "full" and "none", so "unhandled safety level" is returned for no value
    the flag accepts; "none" selects SafetyNone, and the default "full"
    selects SafetyFull, the level set before the flag is parsed. *)
Theorem safetyFlagVar_PreAction_covers_enum str :
  (str ∈ safety_enum <-> exists r, safetyFlagVar_PreAction str = Ok r) /\
  (str ∉ safety_enum ->
   safetyFlagVar_PreAction str = Err (Errorf "unhandled safety level" [])) /\
  safetyFlagVar_PreAction safety_default = Ok SafetyFull /\
  safetyFlagVar_PreAction "none" = Ok SafetyNone.
Proof.
  assert (Hcases : (str = "full" /\ safetyFlagVar_PreAction str = Ok SafetyFull)
                   \/ (str = "none" /\ safetyFlagVar_PreAction str = Ok SafetyNone)
                   \/ (str <> "full" /\ str <> "none" /\
                       safetyFlagVar_PreAction str =
                         Err (Errorf "unhandled safety level" []))).
  { unfold safetyFlagVar_PreAction, safetyByName.
    destruct (decide (str = "none")) as [->|Hn]; [right; left; by split|].
    destruct (decide (str = "full")) as [->|Hf]; [left; by split|].
    right. right. repeat split; try done.
    rewrite lookup_insert_ne by done.
    by rewrite lookup_singleton_ne. }
  assert (Hin : str ∈ safety_enum <-> str = "full" \/ str = "none").
  { unfold safety_enum. rewrite elem_of_cons, list_elem_of_singleton. tauto. }
  split; [split|split; [|split; reflexivity]].
  - intros H. apply Hin in H.
    destruct Hcases as [[_ Hc] | [[_ Hc] | (Hf & Hn & _)]]; eauto.
    by destruct H.
  - intros [r Hr]. apply Hin.
    destruct Hcases as [[-> _] | [[-> _] | (_ & _ & H)]];
      [by left | by right | congruence].
  - intros Hnot.
    destruct Hcases as [[Hs _] | [[Hs _] | (_ & _ & H)]]; [| |done];
      exfalso; apply Hnot, Hin; tauto.
Qed.

Lemma safetyFlagVar_PreAction_covers_enum_witness :
  safetyFlagVar_PreAction "paranoid" = Err (Errorf "unhandled safety level" []).
Proof.
  apply (proj1 (proj2 (safetyFlagVar_PreAction_covers_enum "paranoid"))).
  unfold safety_enum. rewrite elem_of_cons, list_elem_of_singleton.
  intros [H|H]; inversion H.
Defined.

(** ** The bounds check within 32 bits, and other maintenance failures *)

(** X21.  In bounds mode, for a record whose blob is in the map and whose
    offset and length add up to less than 2^32, the check is exact: it
    succeeds exactly when offset plus length is at most the length of the
    blob, a record that ends at the end of its blob included, and fails
    with "out of bounds" otherwise. *)
Theorem contentVerify_bounds_exact_below_wrap c r ci
    (blobMap : gmap string Metadata) bi :
  contentVerifyFull c = false ->
  blobMap !! GetPackBlobID ci = Some bi ->
  0 <= GetPackOffset ci -> 0 <= GetPackedLength ci ->
  GetPackOffset ci + GetPackedLength ci < 2 ^ 32 ->
  (contentVerify c r ci blobMap = None <->
     GetPackOffset ci + GetPackedLength ci <= Length bi) /\
  (Length bi < GetPackOffset ci + GetPackedLength ci ->
     contentVerify c r ci blobMap =
       Some (Errorf out_of_bounds_fmt
               [FStr (GetContentID ci); FStr (GetPackBlobID ci)])).
Proof. apply contentVerify_bounds_no_wrap. Qed.

Lemma contentVerify_bounds_exact_below_wrap_witness :
  contentVerify bounds_cmd (reader [] (fun _ => None))
    (record "C" "B1" 500 500) scenario_blobMap = None /\
  contentVerify bounds_cmd (reader [] (fun _ => None))
    (record "C" "B1" 500 501) scenario_blobMap =
    Some (Errorf out_of_bounds_fmt [FStr "C"; FStr "B1"]).
Proof.
  split.
  - apply (proj1 (contentVerify_bounds_exact_below_wrap bounds_cmd
                    (reader [] (fun _ => None)) (record "C" "B1" 500 500)
                    scenario_blobMap B1 eq_refl
                    ltac:(vm_compute; reflexivity)
                    ltac:(cbn; lia) ltac:(cbn; lia) ltac:(cbn; lia))).
    cbn. lia.
  - apply (proj2 (contentVerify_bounds_exact_below_wrap bounds_cmd
                    (reader [] (fun _ => None)) (record "C" "B1" 500 501)
                    scenario_blobMap B1 eq_refl
                    ltac:(vm_compute; reflexivity)
                    ltac:(cbn; lia) ltac:(cbn; lia) ltac:(cbn; lia))).
    cbn. lia.
Defined.

(** X22.  When [maybeRunMaintenance] gets past its gate, it returns nil
    exactly when the maintenance procedure and the commit of its session
    succeed or the error holds a NotOwnedError in its chain; every other
    error of the procedure or of the commit is returned wrapped as "error
    running maintenance". *)
Theorem maybeRunMaintenance_reports_other_failures app rep :
  enableAutomaticMaintenance app = true ->
  ReadOnly rep = false ->
  is_Some (asDirect rep) ->
  (value (maybeRunMaintenance app rep) = Val None <->
   maintenance_session_err rep = None \/
   errors_As_NotOwned (maintenance_session_err rep) = true) /\
  (forall e,
     maintenance_session_err rep = Some e ->
     chain_has_NotOwned e = false ->
     value (maybeRunMaintenance app rep) =
       Val (Some (Wrapf e "error running maintenance" []))).
Proof.
  intros Hen Hro Hdir.
  assert (Hgate : maintenance_gate app rep = true).
  { unfold maintenance_gate. rewrite Hen, Hro. cbn.
    by apply bool_decide_eq_true. }
  rewrite (maybeRunMaintenance_open _ _ Hgate). cbn [value fst]. split.
  - destruct (maintenance_session_err rep) as [e|]; cbn.
    + destruct (chain_has_NotOwned e); split; intros H;
        try done; try (by right); destruct H; done.
    + split; [by left | done].
  - intros e -> Hno. cbn. by rewrite Hno.
Qed.

Lemma maybeRunMaintenance_reports_other_failures_witness :
  value (maybeRunMaintenance quiet_app
           (repo_with (Some (External "disk full")) None)) =
    Val (Some (Wrapf (External "disk full") "error running maintenance" [])).
Proof.
  apply (proj2 (maybeRunMaintenance_reports_other_failures quiet_app
                  (repo_with (Some (External "disk full")) None)
                  eq_refl eq_refl (ex_intro _ scenario_rep eq_refl))
           (External "disk full") eq_refl eq_refl).
Defined.
